(** * Spherical voxel traversal: a shallow embedding of [walkSphericalVolume]

    The development follows [spherical_volume_rendering_util.cpp] and the
    [Ray] structure of [ray.h].  The C++ code computes on [double]; the
    embedding is written once over an interface of scalar operations
    ([Scalar]) and is then read at two carriers:

    - [float], Rocq's primitive IEEE 754 binary64 numbers, which is what the
      program runs on and on which every definition evaluates;
    - [R], the real numbers, for statements about exact arithmetic.

    Signed C++ [int] values are integers of [Z]; conversions to [std::size_t]
    are written out as reductions modulo [2^64]. *)

From Stdlib Require Import ZArith List Bool Lia Reals Lra Floats.
Import ListNotations.

(** ** Scalars *)

Class Scalar (T : Type) : Type := {
  s_zero : T;
  s_one : T;
  s_tenth : T;                 (* the literal 0.1 *)
  s_add : T -> T -> T;
  s_sub : T -> T -> T;
  s_mul : T -> T -> T;
  s_div : T -> T -> T;
  s_opp : T -> T;              (* unary minus *)
  s_sqrt : T -> T;             (* std::sqrt *)
  s_abs : T -> T;              (* std::abs on double *)
  s_ltb : T -> T -> bool;      (* a < b *)
  s_leb : T -> T -> bool;      (* a <= b *)
  s_eqb : T -> T -> bool;      (* a == b *)
  s_of_Z : Z -> T;             (* conversion of an integer to double *)
  DOUBLE_MAX : T;              (* std::numeric_limits<double>::max() *)
  ABS_EPSILON : T;
  REL_EPSILON : T
}.

Declare Scope scalar_scope.
Delimit Scope scalar_scope with sc.
Infix "+" := s_add : scalar_scope.
Infix "-" := s_sub : scalar_scope.
Infix "*" := s_mul : scalar_scope.
Infix "/" := s_div : scalar_scope.
Infix "<?" := s_ltb : scalar_scope.
Infix "<=?" := s_leb : scalar_scope.
Notation "a ==? b" := (s_eqb a b) (at level 70) : scalar_scope.
Notation "a >? b" := (s_ltb b a) (at level 70, only parsing) : scalar_scope.
Notation "a >=? b" := (s_leb b a) (at level 70, only parsing) : scalar_scope.

(** [std::size_t] is 64 bits wide; converting a negative [int] wraps. *)
Definition size_t_modulus : Z := 2 ^ 64.
Definition to_size_t (z : Z) : Z := z mod size_t_modulus.

(** A [bool] used as an integer. *)
Definition Z_of_bool (b : bool) : Z := if b then 1 else 0.

(** Reading a [std::vector] by index.  The source reads unchecked; outside
    the table the model yields the default [d]. *)
Definition lookup {A : Type} (d : A) (l : list A) (i : Z) : A :=
  if ((i <? 0) || (Z.of_nat (length l) <=? i))%Z then d
  else nth (Z.to_nat i) l d.

Section Svr.

Context {T : Type} `{Scalar T}.
Local Open Scope scalar_scope.

Definition s_min (a b : T) : T := if b <? a then b else a.   (* std::min *)
Definition s_max (a b : T) : T := if a <? b then b else a.   (* std::max *)
Definition s_of_bool (b : bool) : T := if b then s_one else s_zero.

(** Modelled from the spec: [isEqual] and [lessThan] of
    floating_point_comparison_util.h, which is not among the sources.
    [isEqual a b] holds iff [|a - b| <= eps_abs + eps_rel * max |a| |b|];
    [lessThan a b] is [a < b - eps]. *)
Definition isEqual (a b : T) : bool :=
  s_abs (a - b) <=? ABS_EPSILON + REL_EPSILON * s_max (s_abs a) (s_abs b).

Definition lessThan (a b : T) : bool := a <? b - ABS_EPSILON.

(** ** Vectors

    Modelled from the spec: the vector kernel of vec3.h, which is not among
    the sources (section 2, component A: 3-D vector arithmetic, dot product,
    squared length).  [BoundVec3], [FreeVec3] and [UnitVec3] share one
    representation; the distinction is a typing discipline of the C++
    code. *)

Record Vec3 : Type := mkVec3 { vx : T; vy : T; vz : T }.

Definition vec_add (a b : Vec3) : Vec3 :=
  mkVec3 (vx a + vx b) (vy a + vy b) (vz a + vz b).
Definition vec_sub (a b : Vec3) : Vec3 :=
  mkVec3 (vx a - vx b) (vy a - vy b) (vz a - vz b).
Definition vec_scale (a : Vec3) (k : T) : Vec3 :=
  mkVec3 (vx a * k) (vy a * k) (vz a * k).
Definition dot (a b : Vec3) : T := vx a * vx b + vy a * vy b + vz a * vz b.
Definition squared_length (a : Vec3) : T := dot a a.

(** ** Rays (ray.h) *)

Record Ray : Type := mkRayFields {
  origin : Vec3;
  direction : Vec3;
  invDirection : Vec3;
  xDirectionIsNonZero : bool;
  yDirectionIsNonZero : bool;
  zDirectionIsNonZero : bool
}.

(** The constructor [Ray::Ray(origin, direction)].  The three flags are
    initialised with [direction.x() > 0] and so on; the inverse direction
    holds [1 / direction.x()] and so on (the cached inverse per component of
    the spec, section 3). *)
Definition mkRay (o d : Vec3) : Ray :=
  {| origin := o;
     direction := d;
     invDirection := mkVec3 (s_one / vx d) (s_one / vy d) (s_one / vz d);
     xDirectionIsNonZero := vx d >? s_zero;
     yDirectionIsNonZero := vy d >? s_zero;
     zDirectionIsNonZero := vz d >? s_zero |}.

Definition pointAtParameter (r : Ray) (t : T) : Vec3 :=
  vec_add (origin r) (vec_scale (direction r) t).

(** [Ray::timeOfIntersectionAt(double discriminant_v)]. *)
Definition timeOfIntersectionAt (r : Ray) (discriminant_v : T) : T :=
  if xDirectionIsNonZero r then
    let p_x := vx (origin r) + vx (direction r) * discriminant_v in
    (p_x - vx (origin r)) * vx (invDirection r)
  else if yDirectionIsNonZero r then
    let p_y := vy (origin r) + vy (direction r) * discriminant_v in
    (p_y - vy (origin r)) * vy (invDirection r)
  else
    let p_z := vz (origin r) + vz (direction r) * discriminant_v in
    (p_z - vz (origin r)) * vz (invDirection r).

(** Modelled from the spec: the overload of [timeOfIntersectionAt] that takes
    a point, used for [collinear_times]; it is not in the given [ray.h].  The
    comment above the scalar overload gives the calculation
    [t = (p.a() - origin.a()) / direction.a()], [a] a non-zero direction; the
    component is chosen as in the scalar overload. *)
Definition timeOfIntersectionAtPoint (r : Ray) (p : Vec3) : T :=
  if xDirectionIsNonZero r then (vx p - vx (origin r)) * vx (invDirection r)
  else if yDirectionIsNonZero r then
    (vy p - vy (origin r)) * vy (invDirection r)
  else (vz p - vz (origin r)) * vz (invDirection r).

(** Modelled from the spec: [RaySegment], whose header is not among the
    sources.  [P2] is fixed at [origin + max_t * direction]; [updateAtTime]
    moves [P1] to [origin + t * direction] and recomputes [vector = P2 - P1];
    [intersectionTimeAt b] is the ray time of the point at parameter [b] of
    the segment. *)
Record RaySegment : Type := mkRaySegment {
  seg_P1 : Vec3;
  seg_P2 : Vec3;
  seg_vector : Vec3
}.

Definition RaySegment_updateAtTime (p2 : Vec3) (t : T) (r : Ray) : RaySegment :=
  let p1 := pointAtParameter r t in
  mkRaySegment p1 p2 (vec_sub p2 p1).

Definition intersectionTimeAt (s : RaySegment) (b : T) (r : Ray) : T :=
  timeOfIntersectionAtPoint r (vec_add (seg_P1 s) (vec_scale (seg_vector s) b)).

(** ** The grid and the output records

    Modelled from the spec: [SphericalVoxelGrid], [LineSegment],
    [TrigonometricValues] and [SphericalVoxel] are declared in
    spherical_volume_rendering_util.h, which is not among the sources.  The
    grid is a value already built; its fields are the accessors the traversal
    calls.  Section counts are [std::size_t]. *)

Record LineSegment : Type := mkLineSegment { P1 : T; P2 : T }.

Record TrigonometricValues : Type := mkTrig { cosine : T; sine : T }.

Record SphericalVoxelGrid : Type := mkGrid {
  sphereCenter : Vec3;
  sphereMaxRadius : T;
  sphereMaxDiameter : T;
  numRadialSections : Z;
  numPolarSections : Z;
  numAzimuthalSections : Z;
  deltaRadius : T;
  deltaTheta : T;
  deltaPhi : T;
  delta_radii_sq : list T;
  pMaxPolar : list LineSegment;
  pMaxAzimuthal : list LineSegment;
  center_to_polar_bound : list Vec3;
  center_to_azimuthal_bound : list Vec3;
  polarTrigValues : list TrigonometricValues;
  azimuthalTrigValues : list TrigonometricValues;
  sphereMinBoundPolar : T;
  sphereMaxBoundPolar : T;
  sphereMinBoundAzi : T;
  sphereMaxBoundAzi : T
}.

Definition zero_vec : Vec3 := mkVec3 s_zero s_zero s_zero.
Definition zero_segment : LineSegment := mkLineSegment s_zero s_zero.

Definition deltaRadiiSquared (g : SphericalVoxelGrid) (k : Z) : T :=
  lookup s_zero (delta_radii_sq g) k.
Definition pMaxPolarAt (g : SphericalVoxelGrid) (i : Z) : LineSegment :=
  lookup zero_segment (pMaxPolar g) i.
Definition pMaxAzimuthalAt (g : SphericalVoxelGrid) (i : Z) : LineSegment :=
  lookup zero_segment (pMaxAzimuthal g) i.
Definition centerToPolarBound (g : SphericalVoxelGrid) (i : Z) : Vec3 :=
  lookup zero_vec (center_to_polar_bound g) i.
Definition centerToAzimuthalBound (g : SphericalVoxelGrid) (i : Z) : Vec3 :=
  lookup zero_vec (center_to_azimuthal_bound g) i.

Record SphericalVoxel : Type := mkVoxel {
  radial : Z;
  polar : Z;
  azimuthal : Z;
  enter_t : T;
  exit_t : T
}.

Inductive VoxelIntersectionType : Type :=
| Radial
| Polar
| Azimuthal
| RadialPolar
| RadialAzimuthal
| PolarAzimuthal
| RadialPolarAzimuthal.

Record HitParameters : Type := mkHit { tMax : T; tStep : Z }.

(** The record every hit function returns when there is no intersection time
    [X] with [t < X < max_t]. *)
Definition no_hit : HitParameters := mkHit DOUBLE_MAX 0.

(** ** Angular voxel identifiers *)

(** The test of one arc in [calculateAngularVoxelIDFromPoints]: [a] and [b]
    are the boundary points [angular_max[i]] and [angular_max[j]]. *)
Definition in_arc (a b : LineSegment) (p1 p2 : T) : bool :=
  let X_diff := P1 a - P1 b in
  let Y_diff := P2 a - P2 b in
  let X_p1_diff := P1 a - p1 in
  let X_p2_diff := P2 a - p2 in
  let Y_p1_diff := P1 b - p1 in
  let Y_p2_diff := P2 b - p2 in
  let d1d2 := (X_p1_diff * X_p1_diff) + (X_p2_diff * X_p2_diff) +
              (Y_p1_diff * Y_p1_diff) + (Y_p2_diff * Y_p2_diff) in
  let d3 := (X_diff * X_diff) + (Y_diff * Y_diff) in
  (d1d2 <? d3) || isEqual d1d2 d3.

(** The [for] loop: [i] is the index of the head of [l]. *)
Fixpoint angular_scan (l : list LineSegment) (i : Z) (p1 p2 : T) : option Z :=
  match l with
  | a :: tl =>
      match tl with
      | b :: _ => if in_arc a b p1 p2 then Some i
                  else angular_scan tl (i + 1)%Z p1 p2
      | [] => None
      end
  | [] => None
  end.

Definition calculateAngularVoxelIDFromPoints
    (angular_max : list LineSegment) (p1 p2 : T) : Z :=
  match angular_scan angular_max 0 p1 p2 with
  | Some i => i
  | None => (Z.of_nat (length angular_max) + 1)%Z
  end.

Definition initializeAngularVoxelID (grid : SphericalVoxelGrid)
    (number_of_sections : Z) (ray_sphere : Vec3)
    (angular_max : list LineSegment)
    (ray_sphere_2 grid_sphere_2 entry_radius : T) : Z :=
  if (number_of_sections =? 1)%Z then 0%Z
  else
    let SED := vx ray_sphere * vx ray_sphere + ray_sphere_2 * ray_sphere_2 in
    if SED ==? s_zero then 0%Z
    else
      let r := entry_radius / s_sqrt SED in
      let p1 := vx (sphereCenter grid) - vx ray_sphere * r in
      let p2 := grid_sphere_2 - ray_sphere_2 * r in
      calculateAngularVoxelIDFromPoints angular_max p1 p2.

Definition inBoundsAzimuthal (grid : SphericalVoxelGrid)
    (step azi_voxel : Z) : bool :=
  let radian := s_of_Z (azi_voxel + 1) * deltaPhi grid in
  let angval := radian - s_abs (s_of_Z step * deltaPhi grid) in
  (angval <=? sphereMaxBoundAzi grid)
  && (angval >=? sphereMinBoundAzi grid).

Definition inBoundsPolar (grid : SphericalVoxelGrid)
    (step pol_voxel : Z) : bool :=
  let radian := s_of_Z (pol_voxel + 1) * deltaTheta grid in
  let angval := radian - s_abs (s_of_Z step * deltaTheta grid) in
  (angval <=? sphereMaxBoundPolar grid)
  && (angval >=? sphereMinBoundPolar grid).

(** ** Radial hit

    The flag [radial_step_has_transitioned] is passed by reference in the
    source; here it is returned next to the hit. *)
Definition radialHit (ray : Ray) (grid : SphericalVoxelGrid)
    (radial_step_has_transitioned : bool) (current_radial_voxel : Z)
    (v rsvd_minus_v_squared t max_t : T) : HitParameters * bool :=
  if radial_step_has_transitioned then
    let d_b := s_sqrt (deltaRadiiSquared grid (current_radial_voxel - 1)
                       - rsvd_minus_v_squared) in
    let intersection_t := timeOfIntersectionAt ray (v + d_b) in
    if intersection_t <? max_t then (mkHit intersection_t (-1), true)
    else (no_hit, true)
  else
    let previous_idx :=
      Z.min (to_size_t current_radial_voxel)
            (to_size_t (numRadialSections grid - 1)) in
    let r_a :=
      deltaRadiiSquared grid
        (to_size_t (previous_idx -
           Z_of_bool (deltaRadiiSquared grid previous_idx
                      <? rsvd_minus_v_squared))) in
    let d_a := s_sqrt (r_a - rsvd_minus_v_squared) in
    let t_entrance := timeOfIntersectionAt ray (v - d_a) in
    let t_exit := timeOfIntersectionAt ray (v + d_a) in
    let t_entrance_gt_t := t_entrance >? t in
    if t_entrance_gt_t && (t_entrance ==? t_exit) then
      (mkHit t_entrance 0, true)
    else if t_entrance_gt_t && (t_entrance <? max_t) then
      (mkHit t_entrance 1, false)
    else if t_exit <? max_t then
      (mkHit t_exit (-1), true)
    else (no_hit, false).

(** ** Angular hits *)

(** [collinear_times[b]] for a [std::array<double, 2>] indexed by a [bool]. *)
Definition collinear_time (collinear_times : T * T) (b : bool) : T :=
  if b then snd collinear_times else fst collinear_times.

(** The test [!((lessThan(a, 0) || lessThan(1, a)) || lessThan(b, 0) ||
    lessThan(1, b))]. *)
Definition within_unit (a b : T) : bool :=
  negb (((lessThan a s_zero || lessThan s_one a) || lessThan b s_zero)
        || lessThan s_one b).

Definition angularHit (grid : SphericalVoxelGrid) (ray : Ray)
    (perp_uv_min perp_uv_max perp_uw_min perp_uw_max
     perp_vw_min perp_vw_max : T)
    (ray_segment : RaySegment) (collinear_times : T * T) (t max_t : T)
    (ray_direction_2 sphere_center_2 : T)
    (P_max : list LineSegment) (current_voxel : Z) : HitParameters :=
  let is_parallel_min := isEqual perp_uv_min s_zero in
  let is_collinear_min :=
    is_parallel_min && isEqual perp_uw_min s_zero
                    && isEqual perp_vw_min s_zero in
  let is_parallel_max := isEqual perp_uv_max s_zero in
  let is_collinear_max :=
    is_parallel_max && isEqual perp_uw_max s_zero
                    && isEqual perp_vw_max s_zero in
  let '(t_min, is_intersect_min) :=
    if negb is_parallel_min then
      let inv_perp_uv_min := s_one / perp_uv_min in
      let a := perp_vw_min * inv_perp_uv_min in
      let b := perp_uw_min * inv_perp_uv_min in
      if within_unit a b then (intersectionTimeAt ray_segment b ray, true)
      else (collinear_time collinear_times is_collinear_min, false)
    else (collinear_time collinear_times is_collinear_min, false) in
  let '(t_max, is_intersect_max) :=
    if negb is_parallel_max then
      let inv_perp_uv_max := s_one / perp_uv_max in
      let a := perp_vw_max * inv_perp_uv_max in
      let b := perp_uw_max * inv_perp_uv_max in
      if within_unit a b then (intersectionTimeAt ray_segment b ray, true)
      else (collinear_time collinear_times is_collinear_max, false)
    else (collinear_time collinear_times is_collinear_max, false) in
  let t_t_max_eq := isEqual t t_max in
  let t_max_within_bounds :=
    (t <? t_max) && negb t_t_max_eq && (t_max <? max_t) in
  let t_t_min_eq := isEqual t t_min in
  let t_min_within_bounds :=
    (t <? t_min) && negb t_t_min_eq && (t_min <? max_t) in
  if negb t_max_within_bounds && negb t_min_within_bounds then no_hit
  else if is_intersect_max && negb is_intersect_min && negb is_collinear_min
          && t_max_within_bounds then mkHit t_max 1
  else if is_intersect_min && negb is_intersect_max && negb is_collinear_max
          && t_min_within_bounds then mkHit t_min (-1)
  else if (is_intersect_min && is_intersect_max)
          || (is_intersect_min && is_collinear_max)
          || (is_intersect_max && is_collinear_min) then
    let min_max_eq := isEqual t_min t_max in
    if min_max_eq && t_min_within_bounds then
      let perturbed_t := s_tenth in
      let a := s_opp (vx (direction ray)) * perturbed_t in
      let b := s_opp ray_direction_2 * perturbed_t in
      let max_radius_over_plane_length :=
        sphereMaxRadius grid / s_sqrt (a * a + b * b) in
      let p1 := vx (sphereCenter grid) - max_radius_over_plane_length * a in
      let p2 := sphere_center_2 - max_radius_over_plane_length * b in
      let next_step :=
        Z.abs (current_voxel - calculateAngularVoxelIDFromPoints P_max p1 p2) in
      mkHit t_max
            (if (vx (direction ray) <? s_zero) || (ray_direction_2 <? s_zero)
             then next_step else (- next_step)%Z)
    else if t_min_within_bounds
            && (((t_min <? t_max) && negb min_max_eq) || t_t_max_eq) then
      mkHit t_min (-1)
    else if t_max_within_bounds
            && (((t_max <? t_min) && negb min_max_eq) || t_t_min_eq) then
      mkHit t_max 1
    else no_hit
  else no_hit.

Definition polarHit (ray : Ray) (grid : SphericalVoxelGrid)
    (ray_segment : RaySegment) (collinear_times : T * T)
    (current_polar_voxel : Z) (t max_t : T) : HitParameters :=
  let p_one := mkVec3 (P1 (pMaxPolarAt grid current_polar_voxel))
                      (P2 (pMaxPolarAt grid current_polar_voxel)) s_zero in
  let p_two := mkVec3 (P1 (pMaxPolarAt grid (current_polar_voxel + 1)))
                      (P2 (pMaxPolarAt grid (current_polar_voxel + 1)))
                      s_zero in
  let u_min := centerToPolarBound grid current_polar_voxel in
  let u_max := centerToPolarBound grid (current_polar_voxel + 1) in
  let w_min := vec_sub p_one (seg_P1 ray_segment) in
  let w_max := vec_sub p_two (seg_P1 ray_segment) in
  let sv := seg_vector ray_segment in
  let perp_uv_min := vx u_min * vy sv - vy u_min * vx sv in
  let perp_uv_max := vx u_max * vy sv - vy u_max * vx sv in
  let perp_uw_min := vx u_min * vy w_min - vy u_min * vx w_min in
  let perp_uw_max := vx u_max * vy w_max - vy u_max * vx w_max in
  let perp_vw_min := vx sv * vy w_min - vy sv * vx w_min in
  let perp_vw_max := vx sv * vy w_max - vy sv * vx w_max in
  angularHit grid ray perp_uv_min perp_uv_max perp_uw_min perp_uw_max
             perp_vw_min perp_vw_max ray_segment collinear_times t max_t
             (vy (direction ray)) (vy (sphereCenter grid)) (pMaxPolar grid)
             current_polar_voxel.

Definition azimuthalHit (ray : Ray) (grid : SphericalVoxelGrid)
    (ray_segment : RaySegment) (collinear_times : T * T)
    (current_azimuthal_voxel : Z) (t max_t : T) : HitParameters :=
  let p_one := mkVec3 (P1 (pMaxAzimuthalAt grid current_azimuthal_voxel)) s_zero
                      (P2 (pMaxAzimuthalAt grid current_azimuthal_voxel)) in
  let p_two :=
    mkVec3 (P1 (pMaxAzimuthalAt grid (current_azimuthal_voxel + 1))) s_zero
           (P2 (pMaxAzimuthalAt grid (current_azimuthal_voxel + 1))) in
  let u_min := centerToAzimuthalBound grid current_azimuthal_voxel in
  let u_max := centerToAzimuthalBound grid (current_azimuthal_voxel + 1) in
  let w_min := vec_sub p_one (seg_P1 ray_segment) in
  let w_max := vec_sub p_two (seg_P1 ray_segment) in
  let sv := seg_vector ray_segment in
  let perp_uv_min := vx u_min * vz sv - vz u_min * vx sv in
  let perp_uv_max := vx u_max * vz sv - vz u_max * vx sv in
  let perp_uw_min := vx u_min * vz w_min - vz u_min * vx w_min in
  let perp_uw_max := vx u_max * vz w_max - vz u_max * vx w_max in
  let perp_vw_min := vx sv * vz w_min - vz sv * vx w_min in
  let perp_vw_max := vx sv * vz w_max - vz sv * vx w_max in
  angularHit grid ray perp_uv_min perp_uv_max perp_uw_min perp_uw_max
             perp_vw_min perp_vw_max ray_segment collinear_times t max_t
             (vz (direction ray)) (vz (sphereCenter grid)) (pMaxAzimuthal grid)
             current_azimuthal_voxel.

(** ** Choice of the next boundary *)

Definition minimumIntersection (radial polar azimuthal : HitParameters)
    : VoxelIntersectionType :=
  let RP_eq := isEqual (tMax radial) (tMax polar) in
  let RA_eq := isEqual (tMax radial) (tMax azimuthal) in
  let RP_lt := tMax radial <? tMax polar in
  let RA_lt := tMax radial <? tMax azimuthal in
  if RP_lt && negb RP_eq && RA_lt && negb RA_eq then Radial
  else
    let PA_eq := isEqual (tMax polar) (tMax azimuthal) in
    let PA_lt := tMax polar <? tMax azimuthal in
    if negb RP_lt && negb RP_eq && PA_lt && negb PA_eq then Polar
    else if negb PA_lt && negb PA_eq && negb RA_lt && negb RA_eq then Azimuthal
    else if RP_eq && RA_eq then RadialPolarAzimuthal
    else if PA_eq then PolarAzimuthal
    else if RP_eq then RadialPolar
    else RadialAzimuthal.

(** ** Boundary points at the entry radius *)

(** [std::transform] of [src] into a buffer that holds [dst]: the leading
    entries are overwritten. *)
Definition transform_into {A B : Type} (f : A -> B) (src : list A)
    (dst : list B) : list B :=
  map f src ++ skipn (length src) dst.

Definition initializeVoxelBoundarySegments
    (P_polar P_azimuthal : list LineSegment)
    (ray_origin_is_outside_grid : bool) (grid : SphericalVoxelGrid)
    (current_radius : T) : list LineSegment * list LineSegment :=
  if ray_origin_is_outside_grid then (pMaxPolar grid, pMaxAzimuthal grid)
  else
    (transform_into
       (fun tv => mkLineSegment
                    (current_radius * cosine tv + vx (sphereCenter grid))
                    (current_radius * sine tv + vy (sphereCenter grid)))
       (polarTrigValues grid) P_polar,
     transform_into
       (fun tv => mkLineSegment
                    (current_radius * cosine tv + vx (sphereCenter grid))
                    (current_radius * sine tv + vz (sphereCenter grid)))
       (azimuthalTrigValues grid) P_azimuthal).

(** ** The traversal driver *)

(** The scan [while (SED < grid.deltaRadiiSquared(k)) ++k;] over the table of
    squared radii, started at its head: the number of leading entries that
    exceed [SED].  (Should every entry exceed [SED], the source reads past
    the table.) *)
Fixpoint radial_entrance (SED : T) (radii_sq : list T) : Z :=
  match radii_sq with
  | r :: tl => if SED <? r then (1 + radial_entrance SED tl)%Z else 0%Z
  | [] => 0%Z
  end.

(** Operations on the [std::vector] of emitted voxels. *)
Definition back_set_exit_t (voxels : list SphericalVoxel) (e : T)
    : list SphericalVoxel :=
  match rev voxels with
  | b :: earlier =>
      rev earlier ++ [mkVoxel (radial b) (polar b) (azimuthal b) (enter_t b) e]
  | [] => []
  end.

Definition push_back (voxels : list SphericalVoxel) (v : SphericalVoxel)
    : list SphericalVoxel := voxels ++ [v].

Definition zero_voxel : SphericalVoxel := mkVoxel 0 0 0 s_zero s_zero.
Definition back (voxels : list SphericalVoxel) : SphericalVoxel :=
  last voxels zero_voxel.

(** What is fixed once the initialisation is over. *)
Record Frame : Type := mkFrame {
  f_ray : Ray;
  f_grid : SphericalVoxelGrid;
  f_v : T;
  f_rsvd_minus_v_squared : T;
  f_max_t : T;                       (* the effective bound *)
  f_t_ray_exit : T;
  f_collinear_times : T * T;
  f_segment_P2 : Vec3
}.

(** The variables the loop updates. *)
Record LoopState : Type := mkState {
  st_t : T;
  current_radial_voxel : Z;
  current_polar_voxel : Z;
  current_azimuthal_voxel : Z;
  radial_step_has_transitioned : bool;
  voxels : list SphericalVoxel
}.

Inductive Step : Type :=
| Return (vs : list SphericalVoxel)
| Continue (st : LoopState).

(** [(current + tStep) % N] with [N] a [std::size_t]: the sum is converted to
    [std::size_t] first. *)
Definition angular_wrap (current step sections : Z) : Z :=
  (to_size_t (current + step) mod sections)%Z.

(** The tail of an iteration (lines 566-575): skip the emission when the
    indices did not change. *)
Definition emit (t : T) (r p a : Z) (transitioned : bool)
    (vs : list SphericalVoxel) : Step :=
  if ((radial (back vs) =? r) && (polar (back vs) =? p)
      && (azimuthal (back vs) =? a))%Z
  then Continue (mkState t r p a transitioned vs)
  else Continue (mkState t r p a transitioned
                   (push_back (back_set_exit_t vs t) (mkVoxel r p a t s_zero))).

(** One iteration of [while (true)]. *)
Definition loop_body (f : Frame) (st : LoopState) : Step :=
  let ray := f_ray f in
  let grid := f_grid f in
  let t := st_t st in
  let max_t := f_max_t f in
  let cr := current_radial_voxel st in
  let cp := current_polar_voxel st in
  let ca := current_azimuthal_voxel st in
  let '(radial, transitioned) :=
    radialHit ray grid (radial_step_has_transitioned st) cr (f_v f)
              (f_rsvd_minus_v_squared f) t max_t in
  let ray_segment := RaySegment_updateAtTime (f_segment_P2 f) t ray in
  let polar := polarHit ray grid ray_segment (f_collinear_times f) cp t max_t in
  let azimuthal :=
    azimuthalHit ray grid ray_segment (f_collinear_times f) ca t max_t in
  let close := Return (back_set_exit_t (voxels st) (f_t_ray_exit f)) in
  if ((cr + tStep radial =? 0)%Z
      || ((tMax radial ==? DOUBLE_MAX) && (tMax polar ==? DOUBLE_MAX)
          && (tMax azimuthal ==? DOUBLE_MAX)))
  then close
  else
    match minimumIntersection radial polar azimuthal with
    | Radial =>
        emit (tMax radial) (cr + tStep radial) cp ca transitioned (voxels st)
    | Polar =>
        if negb (inBoundsPolar grid (tStep polar) cp) then close
        else emit (tMax polar) cr
                  (angular_wrap cp (tStep polar) (numPolarSections grid))
                  ca transitioned (voxels st)
    | Azimuthal =>
        if negb (inBoundsAzimuthal grid (tStep azimuthal) ca) then close
        else emit (tMax azimuthal) cr cp
                  (angular_wrap ca (tStep azimuthal)
                     (numAzimuthalSections grid))
                  transitioned (voxels st)
    | RadialPolar =>
        if negb (inBoundsPolar grid (tStep polar) cp) then close
        else emit (tMax radial) (cr + tStep radial)
                  (angular_wrap cp (tStep polar) (numPolarSections grid))
                  ca transitioned (voxels st)
    | RadialAzimuthal =>
        if negb (inBoundsAzimuthal grid (tStep azimuthal) ca) then close
        else emit (tMax radial) (cr + tStep radial) cp
                  (angular_wrap ca (tStep azimuthal)
                     (numAzimuthalSections grid))
                  transitioned (voxels st)
    | PolarAzimuthal =>
        if negb (inBoundsAzimuthal grid (tStep azimuthal) ca)
           || negb (inBoundsPolar grid (tStep polar) cp) then close
        else emit (tMax polar) cr
                  (angular_wrap cp (tStep polar) (numPolarSections grid))
                  (angular_wrap ca (tStep azimuthal)
                     (numAzimuthalSections grid))
                  transitioned (voxels st)
    | RadialPolarAzimuthal =>
        if negb (inBoundsAzimuthal grid (tStep azimuthal) ca)
           || negb (inBoundsPolar grid (tStep polar) cp) then close
        else emit (tMax radial) (cr + tStep radial)
                  (angular_wrap cp (tStep polar) (numPolarSections grid))
                  (angular_wrap ca (tStep azimuthal)
                     (numAzimuthalSections grid))
                  transitioned (voxels st)
    end.

(** The result of a run: the loop returned, or the iteration budget of the
    model ran out with the voxels emitted so far. *)
Inductive Outcome : Type :=
| Returned (vs : list SphericalVoxel)
| OutOfFuel (vs : list SphericalVoxel).

Definition emitted (o : Outcome) : list SphericalVoxel :=
  match o with Returned vs => vs | OutOfFuel vs => vs end.

Fixpoint traverse (fuel : nat) (f : Frame) (st : LoopState) : Outcome :=
  match fuel with
  | O => OutOfFuel (voxels st)
  | S fuel' =>
      match loop_body f st with
      | Return vs => Returned vs
      | Continue st' => traverse fuel' f st'
      end
  end.

(** The quantities of the initialisation phase, named as in the source. *)
Definition rsv_of (ray : Ray) (grid : SphericalVoxelGrid) : Vec3 :=
  vec_sub (sphereCenter grid) (pointAtParameter ray s_zero).

Definition radial_entrance_voxel (ray : Ray) (grid : SphericalVoxelGrid) : Z :=
  radial_entrance (squared_length (rsv_of ray grid)) (delta_radii_sq grid).

Definition ray_origin_is_outside_grid (ray : Ray) (grid : SphericalVoxelGrid)
    : bool := (radial_entrance_voxel ray grid =? 0)%Z.

Definition vector_index (ray : Ray) (grid : SphericalVoxelGrid) : Z :=
  to_size_t (radial_entrance_voxel ray grid
             - Z_of_bool (negb (ray_origin_is_outside_grid ray grid))).

Definition entry_radius_squared (ray : Ray) (grid : SphericalVoxelGrid) : T :=
  deltaRadiiSquared grid (vector_index ray grid).

Definition entry_radius (ray : Ray) (grid : SphericalVoxelGrid) : T :=
  deltaRadius grid
  * s_of_Z (to_size_t (numRadialSections grid - vector_index ray grid)).

Definition v_of (ray : Ray) (grid : SphericalVoxelGrid) : T :=
  dot (rsv_of ray grid) (direction ray).

Definition rsvd_minus_v_squared_of (ray : Ray) (grid : SphericalVoxelGrid)
    : T :=
  dot (rsv_of ray grid) (rsv_of ray grid) - v_of ray grid * v_of ray grid.

Definition d_of (ray : Ray) (grid : SphericalVoxelGrid) : T :=
  s_sqrt (entry_radius_squared ray grid - rsvd_minus_v_squared_of ray grid).

Definition t_ray_exit (ray : Ray) (grid : SphericalVoxelGrid) : T :=
  timeOfIntersectionAt ray (v_of ray grid + d_of ray grid).

Definition t_ray_entrance (ray : Ray) (grid : SphericalVoxelGrid) : T :=
  timeOfIntersectionAt ray (v_of ray grid - d_of ray grid).

Definition boundary_segments (ray : Ray) (grid : SphericalVoxelGrid)
    : list LineSegment * list LineSegment :=
  initializeVoxelBoundarySegments
    (repeat zero_segment (Z.to_nat (numPolarSections grid + 1)))
    (repeat zero_segment (Z.to_nat (numAzimuthalSections grid + 1)))
    (ray_origin_is_outside_grid ray grid) grid (entry_radius ray grid).

Definition ray_sphere_of (ray : Ray) (grid : SphericalVoxelGrid) : Vec3 :=
  if ray_origin_is_outside_grid ray grid then
    vec_sub (sphereCenter grid) (pointAtParameter ray (t_ray_entrance ray grid))
  else if squared_length (rsv_of ray grid) ==? s_zero then
    vec_sub (rsv_of ray grid) (direction ray)
  else rsv_of ray grid.

Definition initial_polar_voxel (ray : Ray) (grid : SphericalVoxelGrid) : Z :=
  initializeAngularVoxelID grid (numPolarSections grid) (ray_sphere_of ray grid)
    (fst (boundary_segments ray grid)) (vy (ray_sphere_of ray grid))
    (vy (sphereCenter grid)) (entry_radius ray grid).

Definition initial_azimuthal_voxel (ray : Ray) (grid : SphericalVoxelGrid)
    : Z :=
  initializeAngularVoxelID grid (numAzimuthalSections grid)
    (ray_sphere_of ray grid) (snd (boundary_segments ray grid))
    (vz (ray_sphere_of ray grid)) (vz (sphereCenter grid))
    (entry_radius ray grid).

(** [max_t] after line 457. *)
Definition effective_max_t (ray : Ray) (grid : SphericalVoxelGrid) (max_t : T)
    : T :=
  let outside := ray_origin_is_outside_grid ray grid in
  let unitized_ray_time :=
    max_t * sphereMaxDiameter grid
    + t_ray_entrance ray grid * s_of_bool outside in
  if outside then s_min (t_ray_exit ray grid) unitized_ray_time
  else unitized_ray_time.

(** The tests that make [walkSphericalVolume] return the empty vector before
    the first voxel is pushed (lines 394, 414, 417, 434 and 442). *)
Definition rejects (ray : Ray) (grid : SphericalVoxelGrid) (max_t : T) : bool :=
  (max_t <=? s_zero)
  || (entry_radius_squared ray grid <=? rsvd_minus_v_squared_of ray grid)
  || (t_ray_exit ray grid <? s_zero)
  || (to_size_t (initial_polar_voxel ray grid) >=? numPolarSections grid)%Z
  || (to_size_t (initial_azimuthal_voxel ray grid)
      >=? numAzimuthalSections grid)%Z.

Definition initial_frame (ray : Ray) (grid : SphericalVoxelGrid) (max_t : T)
    : Frame :=
  let max_t' := effective_max_t ray grid max_t in
  {| f_ray := ray;
     f_grid := grid;
     f_v := v_of ray grid;
     f_rsvd_minus_v_squared := rsvd_minus_v_squared_of ray grid;
     f_max_t := max_t';
     f_t_ray_exit := t_ray_exit ray grid;
     f_collinear_times :=
       (s_zero, timeOfIntersectionAtPoint ray (sphereCenter grid));
     f_segment_P2 := pointAtParameter ray max_t' |}.

Definition initial_state (ray : Ray) (grid : SphericalVoxelGrid) : LoopState :=
  let outside := ray_origin_is_outside_grid ray grid in
  let current_radial :=
    (radial_entrance_voxel ray grid + Z_of_bool outside)%Z in
  {| st_t := t_ray_entrance ray grid * s_of_bool outside;
     current_radial_voxel := current_radial;
     current_polar_voxel := initial_polar_voxel ray grid;
     current_azimuthal_voxel := initial_azimuthal_voxel ray grid;
     radial_step_has_transitioned := false;
     voxels := push_back []
                 (mkVoxel current_radial (initial_polar_voxel ray grid)
                    (initial_azimuthal_voxel ray grid) s_zero s_zero) |}.

(** [walkSphericalVolume(ray, grid, max_t)], with [fuel] bounding the number
    of iterations of the main loop. *)
Definition walkSphericalVolume (fuel : nat) (ray : Ray)
    (grid : SphericalVoxelGrid) (max_t : T) : Outcome :=
  if max_t <=? s_zero then Returned []
  else if entry_radius_squared ray grid <=? rsvd_minus_v_squared_of ray grid
  then Returned []
  else if t_ray_exit ray grid <? s_zero then Returned []
  else if (to_size_t (initial_polar_voxel ray grid)
           >=? numPolarSections grid)%Z then Returned []
  else if (to_size_t (initial_azimuthal_voxel ray grid)
           >=? numAzimuthalSections grid)%Z then Returned []
  else traverse fuel (initial_frame ray grid max_t) (initial_state ray grid).

End Svr.

Arguments Vec3 T : clear implicits.
Arguments Ray T : clear implicits.
Arguments RaySegment T : clear implicits.
Arguments LineSegment T : clear implicits.
Arguments TrigonometricValues T : clear implicits.
Arguments SphericalVoxelGrid T : clear implicits.
Arguments SphericalVoxel T : clear implicits.
Arguments HitParameters T : clear implicits.
Arguments Frame T : clear implicits.
Arguments LoopState T : clear implicits.
Arguments Step T : clear implicits.
Arguments Outcome T : clear implicits.

(** ** The two carriers *)

(** Conversion of an integer to [double]: exact below [2^53]. *)
Definition float_of_Z (z : Z) : float :=
  if (z <? 0)%Z then PrimFloat.opp (PrimFloat.of_uint63 (Uint63.of_Z (- z)))
  else PrimFloat.of_uint63 (Uint63.of_Z z).

(** IEEE 754 binary64, the arithmetic of the program.  The tolerances are the
    doubles nearest to [1e-9], the typical value the spec gives. *)
#[export] Instance float_scalar : Scalar float := {|
  s_zero := 0%float;
  s_one := 1%float;
  s_tenth := 0x1.999999999999ap-4%float;
  s_add := PrimFloat.add;
  s_sub := PrimFloat.sub;
  s_mul := PrimFloat.mul;
  s_div := PrimFloat.div;
  s_opp := PrimFloat.opp;
  s_sqrt := PrimFloat.sqrt;
  s_abs := PrimFloat.abs;
  s_ltb := PrimFloat.ltb;
  s_leb := PrimFloat.leb;
  s_eqb := PrimFloat.eqb;
  s_of_Z := float_of_Z;
  DOUBLE_MAX := 0x1.fffffffffffffp+1023%float;
  ABS_EPSILON := 0x1.12e0be826d695p-30%float;
  REL_EPSILON := 0x1.12e0be826d695p-30%float
|}.

Definition Rltb (a b : R) : bool := if Rlt_dec a b then true else false.
Definition Rleb (a b : R) : bool := if Rle_dec a b then true else false.
Definition Reqb (a b : R) : bool := if Req_dec_T a b then true else false.

(** The largest finite double, as a real number. *)
Definition R_DOUBLE_MAX : R := IZR (2 ^ 1024 - 2 ^ 971).

(** Exact real arithmetic. *)
#[export] Instance real_scalar : Scalar R := {|
  s_zero := 0%R;
  s_one := 1%R;
  s_tenth := (1 / 10)%R;
  s_add := Rplus;
  s_sub := Rminus;
  s_mul := Rmult;
  s_div := Rdiv;
  s_opp := Ropp;
  s_sqrt := R_sqrt.sqrt;
  s_abs := Rabs;
  s_ltb := Rltb;
  s_leb := Rleb;
  s_eqb := Reqb;
  s_of_Z := IZR;
  DOUBLE_MAX := R_DOUBLE_MAX;
  ABS_EPSILON := (1 / 1000000000)%R;
  REL_EPSILON := (1 / 1000000000)%R
|}.

(** ** Properties of the emitted sequence *)

Section Properties.

Context {T : Type} `{Scalar T}.

Definition same_indices (a b : SphericalVoxel T) : bool :=
  ((radial a =? radial b) && (polar a =? polar b)
   && (azimuthal a =? azimuthal b))%Z.

(** No two neighbours carry the same three indices. *)
Fixpoint no_repeat (vs : list (SphericalVoxel T)) : Prop :=
  match vs with
  | a :: tl =>
      match tl with
      | b :: _ => same_indices a b = false /\ no_repeat tl
      | [] => True
      end
  | [] => True
  end.

(** Each voxel is left at the time the next one is entered. *)
Fixpoint chained (vs : list (SphericalVoxel T)) : Prop :=
  match vs with
  | a :: tl =>
      match tl with
      | b :: _ => exit_t a = enter_t b /\ chained tl
      | [] => True
      end
  | [] => True
  end.

(** Every two consecutive elements of a list are related by [R]. *)
Fixpoint neighbours {A : Type} (R : A -> A -> Prop) (l : list A) : Prop :=
  match l with
  | a :: tl =>
      match tl with
      | b :: _ => R a b /\ neighbours R tl
      | [] => True
      end
  | [] => True
  end.


(** The arc test of [calculateAngularVoxelIDFromPoints] at index [i] of a
    table. *)
Definition arc_matches (tbl : list (LineSegment T)) (p1 p2 : T) (i : Z)
    : Prop :=
  in_arc (lookup zero_segment tbl i) (lookup zero_segment tbl (i + 1)) p1 p2
  = true.

(** The exit time of the ray with the outermost sphere, by the formula the
    driver uses for [t_ray_exit] read at the first entry of the table of
    squared radii. *)
Definition t_exit_outermost (ray : Ray T) (grid : SphericalVoxelGrid T) : T :=
  timeOfIntersectionAt ray
    (s_add (v_of ray grid)
       (s_sqrt (s_sub (deltaRadiiSquared grid 0)
                      (rsvd_minus_v_squared_of ray grid)))).

(** The forward half-line of the ray meets the ball bounded by the outermost
    sphere: some point [P(t)], [t >= 0], is within [sphereMaxRadius] of the
    centre. *)
Definition meets_outer_sphere (ray : Ray T) (grid : SphericalVoxelGrid T)
    : Prop :=
  exists t : T,
    s_leb s_zero t = true
    /\ s_leb (squared_length
                (vec_sub (pointAtParameter ray t) (sphereCenter grid)))
             (s_mul (sphereMaxRadius grid) (sphereMaxRadius grid)) = true.

(** The time of intersection as the specification words it: computed on the
    first component of the direction that is not zero. *)
Definition timeOfIntersectionAt_spec (r : Ray T) (s : T) : T :=
  let o := origin r in
  let d := direction r in
  if negb (s_eqb (vx d) s_zero) then
    s_div (s_sub (s_add (vx o) (s_mul (vx d) s)) (vx o)) (vx d)
  else if negb (s_eqb (vy d) s_zero) then
    s_div (s_sub (s_add (vy o) (s_mul (vy d) s)) (vy o)) (vy d)
  else
    s_div (s_sub (s_add (vz o) (s_mul (vz d) s)) (vz o)) (vz d).

(** The back of the vector with its exit time overwritten. *)
Definition with_exit (b : SphericalVoxel T) (e : T) : SphericalVoxel T :=
  mkVoxel (radial b) (polar b) (azimuthal b) (enter_t b) e.

(** What every iteration keeps true of the vector of voxels: it is not
    empty, its back carries the current indices, and the three properties
    above hold of it. *)
Definition loop_shape (st : LoopState T) : Prop :=
  voxels st <> []
  /\ no_repeat (voxels st)
  /\ chained (voxels st)
  /\ enter_t (hd zero_voxel (voxels st)) = s_zero
  /\ radial (back (voxels st)) = current_radial_voxel st
  /\ polar (back (voxels st)) = current_polar_voxel st
  /\ azimuthal (back (voxels st)) = current_azimuthal_voxel st.

(** The indices of the first voxel of the vector. *)
Definition first_indices (vs : list (SphericalVoxel T)) : Z * Z * Z :=
  let v := hd zero_voxel vs in (radial v, polar v, azimuthal v).

(** The invariant behind the two theorems on radial indices: the radial
    indices of the vector rise while the flag is clear and fall once it is
    set, one at a time. *)
Definition radial_profile (st : LoopState T) : Prop :=
  loop_shape st
  /\ neighbours (fun a b => Z.abs (b - a) <= 1)%Z (map radial (voxels st))
  /\ exists l1 l2,
       map radial (voxels st) = l1 ++ l2
       /\ neighbours Z.le l1 /\ neighbours Z.ge l2
       /\ (radial_step_has_transitioned st = false -> l2 = []).

(** The entrance time [t_entrance] that [radialHit] computes before the
    radial transition, for the radial voxel [k]. *)
Definition radial_t_entrance (ray : Ray T) (grid : SphericalVoxelGrid T)
    (k : Z) (v rsvd_minus_v_squared : T) : T :=
  let previous_idx :=
    Z.min (to_size_t k) (to_size_t (numRadialSections grid - 1)) in
  let r_a :=
    deltaRadiiSquared grid
      (to_size_t (previous_idx -
         Z_of_bool (s_ltb (deltaRadiiSquared grid previous_idx)
                          rsvd_minus_v_squared))) in
  timeOfIntersectionAt ray (s_sub v (s_sqrt (s_sub r_a rsvd_minus_v_squared))).

(** The current indices are at least at their lower bounds, and the angular
    ones below their section counts. *)
Definition index_bounds (g : SphericalVoxelGrid T) (st : LoopState T) : Prop :=
  (1 <= current_radial_voxel st
   /\ 0 <= current_polar_voxel st < numPolarSections g
   /\ 0 <= current_azimuthal_voxel st < numAzimuthalSections g)%Z.

(** What the traversal relies on in a grid: at least one section of each
    kind, counts that fit an [int], tables of [N + 1] entries, and the
    innermost squared radius zero. *)
Definition grid_wf (g : SphericalVoxelGrid T) : Prop :=
  (1 <= numRadialSections g < 2 ^ 31
   /\ 1 <= numPolarSections g < 2 ^ 31
   /\ 1 <= numAzimuthalSections g < 2 ^ 31
   /\ Z.of_nat (length (delta_radii_sq g)) = numRadialSections g + 1
   /\ Z.of_nat (length (pMaxPolar g)) = numPolarSections g + 1
   /\ Z.of_nat (length (pMaxAzimuthal g)) = numAzimuthalSections g + 1
   /\ Z.of_nat (length (polarTrigValues g)) = numPolarSections g + 1
   /\ Z.of_nat (length (azimuthalTrigValues g))
      = numAzimuthalSections g + 1)%Z
  /\ deltaRadiiSquared g (numRadialSections g) = s_zero.

(** Modelled from the spec: the construction of the grid (section 3), which
    is not among the sources.  [deltaRadiiSquared[k] = ((N_r - k) * dR)^2]
    for [k = 0..N_r]; the boundary points lie on the outer sphere; the
    vectors to the bounds are the unit vectors from the centre toward those
    points.  The cosines and sines of the boundary angles are arguments. *)
Definition make_grid (center : Vec3 T) (max_radius : T)
    (n_r n_theta n_phi : Z)
    (polar_trig azimuthal_trig : list (TrigonometricValues T))
    (min_polar max_polar min_azi max_azi : T) : SphericalVoxelGrid T :=
  let delta_radius := s_div max_radius (s_of_Z n_r) in
  {| sphereCenter := center;
     sphereMaxRadius := max_radius;
     sphereMaxDiameter := s_mul max_radius (s_of_Z 2);
     numRadialSections := n_r;
     numPolarSections := n_theta;
     numAzimuthalSections := n_phi;
     deltaRadius := delta_radius;
     deltaTheta := s_div (s_sub max_polar min_polar) (s_of_Z n_theta);
     deltaPhi := s_div (s_sub max_azi min_azi) (s_of_Z n_phi);
     delta_radii_sq :=
       map (fun k : nat =>
              let r := s_mul (s_of_Z (n_r - Z.of_nat k)) delta_radius in
              s_mul r r)
           (seq 0 (Z.to_nat n_r + 1));
     pMaxPolar :=
       map (fun tv => mkLineSegment
                        (s_add (s_mul max_radius (cosine tv)) (vx center))
                        (s_add (s_mul max_radius (sine tv)) (vy center)))
           polar_trig;
     pMaxAzimuthal :=
       map (fun tv => mkLineSegment
                        (s_add (s_mul max_radius (cosine tv)) (vx center))
                        (s_add (s_mul max_radius (sine tv)) (vz center)))
           azimuthal_trig;
     center_to_polar_bound :=
       map (fun tv => mkVec3 (cosine tv) (sine tv) s_zero) polar_trig;
     center_to_azimuthal_bound :=
       map (fun tv => mkVec3 (cosine tv) s_zero (sine tv)) azimuthal_trig;
     polarTrigValues := polar_trig;
     azimuthalTrigValues := azimuthal_trig;
     sphereMinBoundPolar := min_polar;
     sphereMaxBoundPolar := max_polar;
     sphereMinBoundAzi := min_azi;
     sphereMaxBoundAzi := max_azi |}.

End Properties.

(** ** Exact arithmetic: the radial bound and concrete inputs *)



Definition rvec (x y z : R) : Vec3 R := mkVec3 x y z.

Definition quarter_turns_exact : list (TrigonometricValues R) :=
  [mkTrig 1 0; mkTrig 0 1; mkTrig (-1) 0; mkTrig 0 (-1); mkTrig 1 0]%R.

(** The grid and the first ray of the spec's scenarios, over the reals. *)
Definition grid_scenario_exact : SphericalVoxelGrid R :=
  make_grid (rvec 0 0 0) 1%R 4 4 4 quarter_turns_exact quarter_turns_exact
            0%R (2 * PI)%R 0%R (2 * PI)%R.

Definition ray_scenario1_exact : Ray R := mkRay (rvec (-2) 0 0) (rvec 1 0 0).

(** Rewrites the scalar operations at [R] into the operations of [R]. *)
Ltac real_ops :=
  cbn [real_scalar s_zero s_one s_tenth s_add s_sub s_mul s_div s_opp s_sqrt
       s_abs s_ltb s_leb s_eqb s_of_Z DOUBLE_MAX ABS_EPSILON REL_EPSILON] in *.

(** ** Concrete inputs (binary64) *)

Definition fvec (x y z : float) : Vec3 float := mkVec3 x y z.

(** The double nearest to [2 * pi]. *)
Definition two_pi : float := 0x1.921fb54442d18p+2%float.

(** Cosine and sine at the multiples of a quarter turn. *)
Definition quarter_turns : list (TrigonometricValues float) :=
  [mkTrig 1 0; mkTrig 0 1; mkTrig (-1) 0; mkTrig 0 (-1); mkTrig 1 0]%float.

(** A single angular section: both boundaries at angle [0]. *)
Definition full_turn : list (TrigonometricValues float) :=
  [mkTrig 1 0; mkTrig 1 0]%float.

(** The grid of the spec's scenarios: centre [(0,0,0)], [R_max = 1],
    [N_r = N_theta = N_phi = 4]. *)
Definition grid_scenario : SphericalVoxelGrid float :=
  make_grid (fvec 0 0 0) 1%float 4 4 4 quarter_turns quarter_turns
            0%float two_pi 0%float two_pi.

(** Four shells of thickness [1] ([R_max = 4]) and one polar and one
    azimuthal section (scenario 6 scaled). *)
Definition grid_shells : SphericalVoxelGrid float :=
  make_grid (fvec 0 0 0) 4%float 4 1 1 full_turn full_turn
            0%float two_pi 0%float two_pi.

(** Scenario 1: from [(-2,0,0)] along [+x]. *)
Definition ray_scenario1 : Ray float := mkRay (fvec (-2) 0 0) (fvec 1 0 0).

(** From inside the third shell of [grid_shells], moving outward. *)
Definition ray_outward : Ray float := mkRay (fvec 0 1.5 0) (fvec 0 1 0).

(** From the sphere of radius [2] of [grid_shells], moving outward. *)
Definition ray_from_boundary : Ray float := mkRay (fvec 0 2 0) (fvec 0 1 0).

(** From outside [grid_shells], through the centre. *)
Definition ray_through : Ray float := mkRay (fvec 0 (-8) 0) (fvec 0 1 0).

(** Touching the outer sphere of [grid_shells] at [(0,4,0)]. *)
Definition ray_tangent : Ray float := mkRay (fvec (-8) 4 0) (fvec 1 0 0).

(** Along [-x]. *)
Definition ray_negative_x : Ray float := mkRay (fvec 0 0 0) (fvec (-1) 0 0).

(** Scenario 1 reversed: from [(2,0,0)] along [-x], through the centre. *)
Definition ray_inward_negative_x : Ray float :=
  mkRay (fvec 2 0 0) (fvec (-1) 0 0).

(** From outside [grid_shells], pointing away from it along [-y]. *)
Definition ray_away : Ray float := mkRay (fvec 0 (-8) 0) (fvec 0 (-1) 0).

(** Scenario 4: from the centre along [+x]. *)
Definition ray_from_centre : Ray float := mkRay (fvec 0 0 0) (fvec 1 0 0).

(** From [(-0.25, 1.25, 0.25)] along the doubles nearest to
    [(0.6, -0.8, 0)]: clockwise around the [z] axis, across the positive
    [x] axis. *)
Definition ray_clockwise : Ray float :=
  mkRay (fvec (-0.25) 1.25 0.25)
        (fvec 0x1.3333333333333p-1 (-0x1.999999999999ap-1) 0).

(** The same grid with the vectors to the bounds replaced by the vectors
    from the boundary points to the centre. *)
Definition inward_bounds (g : SphericalVoxelGrid float)
    : SphericalVoxelGrid float :=
  {| sphereCenter := sphereCenter g;
     sphereMaxRadius := sphereMaxRadius g;
     sphereMaxDiameter := sphereMaxDiameter g;
     numRadialSections := numRadialSections g;
     numPolarSections := numPolarSections g;
     numAzimuthalSections := numAzimuthalSections g;
     deltaRadius := deltaRadius g;
     deltaTheta := deltaTheta g;
     deltaPhi := deltaPhi g;
     delta_radii_sq := delta_radii_sq g;
     pMaxPolar := pMaxPolar g;
     pMaxAzimuthal := pMaxAzimuthal g;
     center_to_polar_bound :=
       map (fun p => mkVec3 (vx (sphereCenter g) - P1 p)%float
                            (vy (sphereCenter g) - P2 p)%float 0%float)
           (pMaxPolar g);
     center_to_azimuthal_bound :=
       map (fun p => mkVec3 (vx (sphereCenter g) - P1 p)%float 0%float
                            (vz (sphereCenter g) - P2 p)%float)
           (pMaxAzimuthal g);
     polarTrigValues := polarTrigValues g;
     azimuthalTrigValues := azimuthalTrigValues g;
     sphereMinBoundPolar := sphereMinBoundPolar g;
     sphereMaxBoundPolar := sphereMaxBoundPolar g;
     sphereMinBoundAzi := sphereMinBoundAzi g;
     sphereMaxBoundAzi := sphereMaxBoundAzi g |}.

(** * Lemmas that hold whatever the arithmetic *)

Section Generic.

Context {T : Type} `{Scalar T}.

(** *** The vector of voxels *)

Lemma back_set_exit_t_snoc (init : list (SphericalVoxel T))
    (b : SphericalVoxel T) (e : T) :
  back_set_exit_t (init ++ [b]) e = init ++ [with_exit b e].
Proof.
  unfold back_set_exit_t. rewrite rev_app_distr. simpl.
  now rewrite rev_involutive.
Qed.

Lemma back_snoc (init : list (SphericalVoxel T)) (b : SphericalVoxel T)
    : back (init ++ [b]) = b.
Proof. unfold back. apply last_last. Qed.

Lemma snoc_cases (vs : list (SphericalVoxel T)) :
  vs = [] \/ exists init b, vs = init ++ [b].
Proof.
  destruct vs as [|a l]; [now left | right].
  destruct (@exists_last _ (a :: l)) as [init [b E]]; [discriminate | eauto].
Qed.

(** *** The shape of one iteration *)

Lemma loop_body_Return (f : Frame T) (st : LoopState T)
    (vs : list (SphericalVoxel T)) :
  loop_body f st = Return vs ->
  vs = back_set_exit_t (voxels st) (f_t_ray_exit f).
Proof.
  unfold loop_body, emit.
  destruct (radialHit _ _ _ _ _ _ _ _) as [rh tr].
  repeat match goal with
         | |- context [if ?c then _ else _] => destruct c
         | |- context [match minimumIntersection ?a ?b ?c with _ => _ end] =>
             destruct (minimumIntersection a b c)
         end;
    intros E; try discriminate E; now inversion E.
Qed.

Lemma loop_body_Continue (f : Frame T) (st st' : LoopState T) :
  loop_body f st = Continue st' ->
  exists t r p a tr, emit t r p a tr (voxels st) = Continue st'.
Proof.
  unfold loop_body.
  destruct (radialHit _ _ _ _ _ _ _ _) as [rh tr].
  repeat match goal with
         | |- context [if ?c then _ else _] => destruct c
         | |- context [match minimumIntersection ?a ?b ?c with _ => _ end] =>
             destruct (minimumIntersection a b c)
         end;
    intros E; try discriminate E; eauto 10.
Qed.


Lemma emit_cases (t : T) (r p a : Z) (tr : bool) (vs : list (SphericalVoxel T))
    (st' : LoopState T) :
  emit t r p a tr vs = Continue st' ->
  st_t st' = t /\ current_radial_voxel st' = r
  /\ current_polar_voxel st' = p /\ current_azimuthal_voxel st' = a
  /\ radial_step_has_transitioned st' = tr
  /\ ((same_indices (back vs) (mkVoxel r p a t s_zero) = true
       /\ voxels st' = vs)
      \/ (same_indices (back vs) (mkVoxel r p a t s_zero) = false
          /\ voxels st' =
             push_back (back_set_exit_t vs t) (mkVoxel r p a t s_zero))).
Proof.
  unfold emit, same_indices. simpl.
  destruct (_ && _ && _)%bool; intros E; inversion E; subst; simpl; tauto.
Qed.

(** *** Invariants of the loop *)

Lemma no_repeat_snoc (init : list (SphericalVoxel T)) (b v : SphericalVoxel T) :
  no_repeat (init ++ [b]) -> same_indices b v = false ->
  no_repeat (init ++ [b] ++ [v]).
Proof.
  induction init as [|a init IH]; simpl; intros Hn Hb.
  - tauto.
  - destruct init as [|a' init']; simpl in *.
    + tauto.
    + destruct Hn as [Ha Hn]. split; [exact Ha|]. now apply IH.
Qed.

Lemma no_repeat_with_exit (init : list (SphericalVoxel T))
    (b : SphericalVoxel T) (e : T) :
  no_repeat (init ++ [b]) -> no_repeat (init ++ [with_exit b e]).
Proof.
  induction init as [|a init IH]; simpl; intros Hn.
  - exact I.
  - destruct init as [|a' init']; simpl in *.
    + exact Hn.
    + destruct Hn as [Ha Hn]. split; [exact Ha|]. now apply IH.
Qed.

Lemma chained_snoc (init : list (SphericalVoxel T)) (b v : SphericalVoxel T) :
  chained (init ++ [b]) -> exit_t b = enter_t v ->
  chained (init ++ [b] ++ [v]).
Proof.
  induction init as [|a init IH]; simpl; intros Hn Hb.
  - tauto.
  - destruct init as [|a' init']; simpl in *.
    + tauto.
    + destruct Hn as [Ha Hn]. split; [exact Ha|]. now apply IH.
Qed.

Lemma chained_with_exit (init : list (SphericalVoxel T))
    (b : SphericalVoxel T) (e : T) :
  chained (init ++ [b]) -> chained (init ++ [with_exit b e]).
Proof.
  induction init as [|a init IH]; simpl; intros Hn.
  - exact I.
  - destruct init as [|a' init']; simpl in *.
    + exact Hn.
    + destruct Hn as [Ha Hn]. split; [exact Ha|]. now apply IH.
Qed.

(** *** The emitted sequence *)

Lemma hd_snoc_with_exit (init : list (SphericalVoxel T))
    (b : SphericalVoxel T) (e : T) :
  enter_t (hd zero_voxel (init ++ [with_exit b e]))
  = enter_t (hd zero_voxel (init ++ [b])).
Proof. destruct init; reflexivity. Qed.

Lemma hd_snoc_snoc (init : list (SphericalVoxel T)) (b v : SphericalVoxel T) :
  hd zero_voxel ((init ++ [b]) ++ [v]) = hd zero_voxel (init ++ [b]).
Proof. destruct init; reflexivity. Qed.

Lemma loop_shape_step (f : Frame T) (st st' : LoopState T) :
  loop_shape st -> loop_body f st = Continue st' -> loop_shape st'.
Proof.
  intros (Hne & Hrep & Hch & Hhd & Hr & Hp & Ha) E.
  apply loop_body_Continue in E as (t & r & p & a & tr & E).
  apply emit_cases in E as (Et & Er & Ep & Ea & _ & [[Hs Ev] | [Hs Ev]]).
  - unfold loop_shape. rewrite Ev, Er, Ep, Ea.
    unfold same_indices in Hs; simpl in Hs.
    apply andb_prop in Hs as [Hs Hs3]. apply andb_prop in Hs as [Hs1 Hs2].
    apply Z.eqb_eq in Hs1, Hs2, Hs3. tauto.
  - destruct (snoc_cases (voxels st)) as [E0 | (init & b & E0)];
      [contradiction|].
    unfold loop_shape. rewrite Ev, Er, Ep, Ea, E0 in *.
    rewrite back_set_exit_t_snoc. unfold push_back.
    rewrite back_snoc in Hs. rewrite back_snoc.
    repeat split; simpl; try reflexivity.
    + intros C. apply app_eq_nil in C as [_ C]. discriminate C.
    + rewrite <- app_assoc. apply no_repeat_snoc.
      * now apply no_repeat_with_exit.
      * exact Hs.
    + rewrite <- app_assoc. apply chained_snoc.
      * now apply chained_with_exit.
      * reflexivity.
    + rewrite hd_snoc_snoc, hd_snoc_with_exit. exact Hhd.
Qed.

Lemma loop_shape_initial (ray : Ray T) (grid : SphericalVoxelGrid T) :
  loop_shape (initial_state ray grid).
Proof.
  unfold loop_shape, initial_state, push_back, back; simpl.
  repeat split; try reflexivity. discriminate.
Qed.

Lemma traverse_reaches (f : Frame T) (Inv : LoopState T -> Prop) :
  (forall st st', Inv st -> loop_body f st = Continue st' -> Inv st') ->
  forall fuel st, Inv st ->
  (exists st0, Inv st0 /\ traverse fuel f st = OutOfFuel (voxels st0))
  \/ (exists st0 vs, Inv st0 /\ loop_body f st0 = Return vs
                     /\ traverse fuel f st = Returned vs).
Proof.
  intros Hstep fuel.
  induction fuel as [|fuel IH]; intros st Hst; simpl.
  - left. now exists st.
  - destruct (loop_body f st) as [vs|st'] eqn:E.
    + right. now exists st, vs.
    + apply IH. now apply (Hstep st).
Qed.

Lemma loop_shape_return (f : Frame T) (st : LoopState T)
    (vs : list (SphericalVoxel T)) :
  loop_shape st -> loop_body f st = Return vs ->
  exists init b,
    voxels st = init ++ [b] /\ vs = init ++ [with_exit b (f_t_ray_exit f)].
Proof.
  intros (Hne & _) E. apply loop_body_Return in E.
  destruct (snoc_cases (voxels st)) as [E0 | (init & b & E0)];
    [contradiction|].
  exists init, b. split; [exact E0|].
  now rewrite E, E0, back_set_exit_t_snoc.
Qed.

(** What a run of the loop emits, whether it returned or not. *)
Lemma traverse_emitted (f : Frame T) (st : LoopState T) (fuel : nat) :
  loop_shape st ->
  let vs := emitted (traverse fuel f st) in
  vs <> [] /\ no_repeat vs /\ chained vs
  /\ enter_t (hd zero_voxel vs) = s_zero.
Proof.
  intros Hst.
  destruct (traverse_reaches f loop_shape (loop_shape_step f) fuel st Hst)
    as [(st0 & H0 & ->) | (st0 & vs & H0 & E & ->)]; simpl.
  - destruct H0 as (? & ? & ? & ? & _). tauto.
  - destruct (loop_shape_return _ _ _ H0 E) as (init & b & E0 & ->).
    destruct H0 as (_ & Hrep & Hch & Hhd & _). rewrite E0 in *.
    repeat split.
    + intros C. apply app_eq_nil in C as [_ C]. discriminate C.
    + now apply no_repeat_with_exit.
    + now apply chained_with_exit.
    + now rewrite hd_snoc_with_exit.
Qed.

Lemma traverse_returned_last (f : Frame T) (st : LoopState T) (fuel : nat)
    (vs : list (SphericalVoxel T)) :
  loop_shape st -> traverse fuel f st = Returned vs ->
  vs <> [] /\ exit_t (last vs zero_voxel) = f_t_ray_exit f.
Proof.
  intros Hst Hret.
  destruct (traverse_reaches f loop_shape (loop_shape_step f) fuel st Hst)
    as [(st0 & H0 & E) | (st0 & vs' & H0 & E & E')].
  - rewrite E in Hret. discriminate Hret.
  - rewrite E' in Hret. inversion Hret; subst vs'.
    destruct (loop_shape_return _ _ _ H0 E) as (init & b & _ & ->).
    split.
    + intros C. apply app_eq_nil in C as [_ C]. discriminate C.
    + now rewrite last_last.
Qed.

(** The five early exits, and only they, give the empty vector. *)
Lemma walk_rejected (fuel : nat) (ray : Ray T) (grid : SphericalVoxelGrid T)
    (max_t : T) :
  rejects ray grid max_t = true ->
  walkSphericalVolume fuel ray grid max_t = Returned [].
Proof.
  unfold rejects, walkSphericalVolume.
  destruct (s_leb max_t s_zero); [reflexivity|].
  destruct (s_leb (entry_radius_squared ray grid) _); [reflexivity|].
  destruct (s_ltb (t_ray_exit ray grid) s_zero); [reflexivity|].
  destruct (_ >=? numPolarSections grid)%Z; [reflexivity|].
  destruct (_ >=? numAzimuthalSections grid)%Z; [reflexivity|].
  discriminate.
Qed.

Lemma walk_accepted (fuel : nat) (ray : Ray T) (grid : SphericalVoxelGrid T)
    (max_t : T) :
  rejects ray grid max_t = false ->
  walkSphericalVolume fuel ray grid max_t
  = traverse fuel (initial_frame ray grid max_t) (initial_state ray grid).
Proof.
  unfold rejects, walkSphericalVolume.
  destruct (s_leb max_t s_zero); [discriminate|].
  destruct (s_leb (entry_radius_squared ray grid) _); [discriminate|].
  destruct (s_ltb (t_ray_exit ray grid) s_zero); [discriminate|].
  destruct (_ >=? numPolarSections grid)%Z; [discriminate|].
  destruct (_ >=? numAzimuthalSections grid)%Z; [discriminate|].
  reflexivity.
Qed.

Lemma walk_emitted (fuel : nat) (ray : Ray T) (grid : SphericalVoxelGrid T)
    (max_t : T) :
  rejects ray grid max_t = false ->
  let vs := emitted (walkSphericalVolume fuel ray grid max_t) in
  vs <> [] /\ no_repeat vs /\ chained vs
  /\ enter_t (hd zero_voxel vs) = s_zero.
Proof.
  intros Hacc. rewrite (walk_accepted fuel _ _ _ Hacc).
  apply traverse_emitted, loop_shape_initial.
Qed.

(** C8. In the output of [walkSphericalVolume] no two consecutive voxels
    have the same radial, polar and azimuthal indices: an iteration whose
    step leaves the three indices unchanged emits nothing.  This holds for
    the voxels emitted after any number of iterations. *)
Theorem C8_no_consecutive_duplicates (fuel : nat) (ray : Ray T)
    (grid : SphericalVoxelGrid T) (max_t : T) :
  no_repeat (emitted (walkSphericalVolume fuel ray grid max_t)).
Proof.
  destruct (rejects ray grid max_t) eqn:E.
  - rewrite (walk_rejected fuel _ _ _ E). exact I.
  - apply (walk_emitted fuel _ _ _ E).
Qed.

(** Consecutive voxels share the time at which the boundary between them is
    crossed. *)
Lemma walk_chained (fuel : nat) (ray : Ray T) (grid : SphericalVoxelGrid T)
    (max_t : T) :
  chained (emitted (walkSphericalVolume fuel ray grid max_t)).
Proof.
  destruct (rejects ray grid max_t) eqn:E.
  - rewrite (walk_rejected fuel _ _ _ E). exact I.
  - apply (walk_emitted fuel _ _ _ E).
Qed.

(** The first voxel is pushed without an entry time, which is therefore
    zero whatever the ray. *)
Lemma walk_first_enter_t (fuel : nat) (ray : Ray T)
    (grid : SphericalVoxelGrid T)
    (max_t : T) :
  enter_t (hd zero_voxel (emitted (walkSphericalVolume fuel ray grid max_t)))
  = s_zero.
Proof.
  destruct (rejects ray grid max_t) eqn:E.
  - rewrite (walk_rejected fuel _ _ _ E). reflexivity.
  - apply (walk_emitted fuel _ _ _ E).
Qed.

(** X17. As the code behaves, [walkSphericalVolume] returns the empty
    sequence exactly when one of its five early exits fires: [max_t <= 0],
    the entry sphere is missed or only touched
    ([entry_radius_squared <= rsvd_minus_v_squared]), [t_ray_exit < 0], or
    the polar or the azimuthal initialisation yields an index that is not
    below the section count.  When none fires, the voxels emitted after any
    number of iterations are never empty. *)
Theorem walk_empty_iff_rejected (fuel : nat) (ray : Ray T)
    (grid : SphericalVoxelGrid T) (max_t : T) :
  (walkSphericalVolume fuel ray grid max_t = Returned []
   <-> rejects ray grid max_t = true)
  /\ (rejects ray grid max_t = false ->
      emitted (walkSphericalVolume fuel ray grid max_t) <> []).
Proof.
  split; [split|].
  - intros E. destruct (rejects ray grid max_t) eqn:R; [reflexivity|].
    exfalso. rewrite (walk_accepted fuel _ _ _ R) in E.
    destruct (traverse_returned_last _ _ fuel _
                (loop_shape_initial ray grid) E) as [Hne _].
    now apply Hne.
  - apply walk_rejected.
  - intros R. apply (walk_emitted fuel _ _ _ R).
Qed.


(** *** The angular search *)

Lemma lookup_app_head {A : Type} (d : A) (pre tl : list A) (x : A) :
  lookup d (pre ++ x :: tl) (Z.of_nat (length pre)) = x.
Proof.
  unfold lookup. rewrite length_app. simpl.
  destruct (Z.ltb_spec (Z.of_nat (length pre)) 0); [lia|].
  destruct (Z.leb_spec (Z.of_nat (length pre + S (length tl)))
                       (Z.of_nat (length pre))); [lia|].
  simpl. rewrite Nat2Z.id, app_nth2, Nat.sub_diag by lia. reflexivity.
Qed.

Lemma angular_scan_spec (l : list (LineSegment T)) (p1 p2 : T) :
  forall (pre : list (LineSegment T)),
  match angular_scan l (Z.of_nat (length pre)) p1 p2 with
  | Some i =>
      (Z.of_nat (length pre) <= i /\ i + 1 < Z.of_nat (length (pre ++ l))
       /\ arc_matches (pre ++ l) p1 p2 i
       /\ forall j, Z.of_nat (length pre) <= j < i ->
                    ~ arc_matches (pre ++ l) p1 p2 j)%Z
  | None =>
      forall j, (Z.of_nat (length pre) <= j)%Z ->
                (j + 1 < Z.of_nat (length (pre ++ l)))%Z ->
                ~ arc_matches (pre ++ l) p1 p2 j
  end.
Proof.
  induction l as [|a tl IH]; intros pre; simpl.
  - intros j Hj Hlt. rewrite app_nil_r in Hlt. lia.
  - destruct tl as [|b tl'].
    + intros j Hj Hlt. rewrite length_app in Hlt. simpl in Hlt. lia.
    + assert (Ea : lookup zero_segment (pre ++ a :: b :: tl')
                     (Z.of_nat (length pre)) = a)
        by apply lookup_app_head.
      assert (Eb : lookup zero_segment (pre ++ a :: b :: tl')
                     (Z.of_nat (length pre) + 1) = b).
      { replace (pre ++ a :: b :: tl') with ((pre ++ [a]) ++ b :: tl')
          by now rewrite <- app_assoc.
        replace (Z.of_nat (length pre) + 1)%Z
          with (Z.of_nat (length (pre ++ [a])))
          by (rewrite length_app; simpl; lia).
        apply lookup_app_head. }
      destruct (in_arc a b p1 p2) eqn:Hab.
      * repeat split.
        -- lia.
        -- rewrite length_app. simpl. lia.
        -- unfold arc_matches. now rewrite Ea, Eb.
        -- intros j Hj. lia.
      * specialize (IH (pre ++ [a])).
        replace (Z.of_nat (length (pre ++ [a])))
          with (Z.of_nat (length pre) + 1)%Z in IH
          by (rewrite length_app; simpl; lia).
        replace ((pre ++ [a]) ++ b :: tl') with (pre ++ a :: b :: tl') in IH
          by now rewrite <- app_assoc.
        assert (Hhead : ~ arc_matches (pre ++ a :: b :: tl') p1 p2
                          (Z.of_nat (length pre))).
        { unfold arc_matches. rewrite Ea, Eb, Hab. discriminate. }
        destruct (angular_scan (b :: tl') (Z.of_nat (length pre) + 1) p1 p2)
          as [i|].
        -- destruct IH as (Hi & Hlt & Hm & Hfirst).
           repeat split; try assumption; try lia.
           intros j Hj.
           destruct (Z.eq_dec j (Z.of_nat (length pre))) as [->|Hne];
             [exact Hhead | apply Hfirst; lia].
        -- intros j Hj Hlt.
           destruct (Z.eq_dec j (Z.of_nat (length pre))) as [->|Hne];
             [exact Hhead | apply IH; lia].
Qed.

(** The result of the search lies below the last index of the table, or is
    the size of the table plus one. *)
Lemma angular_voxel_id_range (tbl : list (LineSegment T)) (p1 p2 : T) :
  let r := calculateAngularVoxelIDFromPoints tbl p1 p2 in
  (0 <= r /\ r + 1 < Z.of_nat (length tbl))%Z
  \/ r = (Z.of_nat (length tbl) + 1)%Z.
Proof.
  unfold calculateAngularVoxelIDFromPoints.
  pose proof (angular_scan_spec tbl p1 p2 []) as Hs. simpl in Hs.
  destruct (angular_scan tbl 0 p1 p2) as [i|]; [left | right]; simpl.
  - split; apply Hs.
  - reflexivity.
Qed.

(** C7, amended. For every table of boundary points and every query point,
    the search returns the first index [i] whose arc (between points [i] and
    [i + 1]) passes the test [d1 + d2 < d3 || isEqual (d1 + d2) d3]; when no
    arc passes it returns the size of the table plus one, that is [N + 2]
    for a table of [N + 1] points. *)
Theorem C7_angular_voxel_id (tbl : list (LineSegment T)) (p1 p2 : T) :
  let r := calculateAngularVoxelIDFromPoints tbl p1 p2 in
  (0 <= r /\ r + 1 < Z.of_nat (length tbl)
   /\ arc_matches tbl p1 p2 r
   /\ forall j, 0 <= j < r -> ~ arc_matches tbl p1 p2 j)%Z
  \/ (r = Z.of_nat (length tbl) + 1
      /\ forall j, 0 <= j -> j + 1 < Z.of_nat (length tbl) ->
                   ~ arc_matches tbl p1 p2 j)%Z.
Proof.
  unfold calculateAngularVoxelIDFromPoints.
  pose proof (angular_scan_spec tbl p1 p2 []) as Hs. simpl in Hs.
  destruct (angular_scan tbl 0 p1 p2) as [i|]; [left | right]; simpl.
  - exact Hs.
  - split; [reflexivity | exact Hs].
Qed.

(** *** Case analyses of the hit functions and of an iteration *)

Lemma radialHit_cases (ray : Ray T) (grid : SphericalVoxelGrid T)
    (tr : bool) (k : Z) (v rmv2 t max_t : T) :
  let h := fst (radialHit ray grid tr k v rmv2 t max_t) in
  let tr' := snd (radialHit ray grid tr k v rmv2 t max_t) in
  (tr' = true /\ (tStep h = (-1)%Z \/ tStep h = 0%Z))
  \/ (tr = false /\ tr' = false /\ h = no_hit)
  \/ (tr = false /\ tr' = false
      /\ h = mkHit (radial_t_entrance ray grid k v rmv2) 1
      /\ s_ltb t (radial_t_entrance ray grid k v rmv2) = true
      /\ s_ltb (radial_t_entrance ray grid k v rmv2) max_t = true).
Proof.
  unfold radialHit, radial_t_entrance. destruct tr.
  - left. destruct (s_ltb _ max_t); simpl; auto.
  - cbv zeta.
    match goal with
    | |- context [if ?c1 && ?c2 then _ else _] =>
        destruct c1 eqn:Egt; simpl
    end.
    + match goal with
      | |- context [if ?c then _ else _] => destruct c; simpl; [auto|]
      end.
      match goal with
      | |- context [if ?c then _ else _] => destruct c eqn:Elt; simpl
      end.
      * right. right. auto.
      * match goal with
        | |- context [if ?c then _ else _] => destruct c; simpl; auto
        end.
    + match goal with
      | |- context [if ?c then _ else _] => destruct c; simpl; auto
      end.
Qed.

Lemma loop_body_step (f : Frame T) (st st' : LoopState T) :
  loop_body f st = Continue st' ->
  let rh := radialHit (f_ray f) (f_grid f) (radial_step_has_transitioned st)
              (current_radial_voxel st) (f_v f) (f_rsvd_minus_v_squared f)
              (st_t st) (f_max_t f) in
  let seg := RaySegment_updateAtTime (f_segment_P2 f) (st_t st) (f_ray f) in
  let ph := polarHit (f_ray f) (f_grid f) seg (f_collinear_times f)
              (current_polar_voxel st) (st_t st) (f_max_t f) in
  let ah := azimuthalHit (f_ray f) (f_grid f) seg (f_collinear_times f)
              (current_azimuthal_voxel st) (st_t st) (f_max_t f) in
  (current_radial_voxel st + tStep (fst rh) <> 0)%Z
  /\ exists t' r' p' a',
       emit t' r' p' a' (snd rh) (voxels st) = Continue st'
       /\ ((t' = tMax (fst rh)
            /\ r' = (current_radial_voxel st + tStep (fst rh))%Z)
           \/ ((t' = tMax ph \/ t' = tMax ah)
               /\ r' = current_radial_voxel st))
       /\ (p' = current_polar_voxel st
           \/ p' = angular_wrap (current_polar_voxel st) (tStep ph)
                     (numPolarSections (f_grid f)))
       /\ (a' = current_azimuthal_voxel st
           \/ a' = angular_wrap (current_azimuthal_voxel st) (tStep ah)
                     (numAzimuthalSections (f_grid f))).
Proof.
  unfold loop_body. cbv zeta.
  destruct (radialHit _ _ _ _ _ _ _ _) as [h tr'] eqn:Erh. simpl fst; simpl snd.
  destruct (_ || _) eqn:Eexit; [discriminate|].
  apply orb_false_elim in Eexit as [Ek _]. apply Z.eqb_neq in Ek.
  intros E. split; [exact Ek|].
  destruct (minimumIntersection _ _ _);
    repeat match type of E with
           | (if ?c then _ else _) = _ => destruct c; [discriminate E|]
           end;
    do 4 eexists; (split; [exact E|]); tauto.
Qed.




Lemma angular_wrap_range (cur step n : Z) :
  (1 <= n)%Z -> (0 <= angular_wrap cur step n < n)%Z.
Proof. intros Hn. unfold angular_wrap. apply Z.mod_pos_bound. lia. Qed.

Lemma radialHit_tStep (ray : Ray T) (grid : SphericalVoxelGrid T)
    (tr : bool) (k : Z) (v rmv2 t max_t : T) :
  let h := fst (radialHit ray grid tr k v rmv2 t max_t) in
  (tStep h = -1 \/ tStep h = 0 \/ tStep h = 1)%Z.
Proof.
  cbv zeta.
  destruct (radialHit_cases ray grid tr k v rmv2 t max_t)
    as [(_ & [E | E]) | [(_ & _ & E) | (_ & _ & E & _)]];
    try rewrite E; simpl; auto.
Qed.

Lemma index_bounds_step (f : Frame T) (st st' : LoopState T) :
  (1 <= numPolarSections (f_grid f))%Z ->
  (1 <= numAzimuthalSections (f_grid f))%Z ->
  index_bounds (f_grid f) st -> loop_body f st = Continue st' ->
  index_bounds (f_grid f) st'.
Proof.
  intros Hp Ha (Hr & Hcp & Hca) E.
  apply loop_body_step in E as (Hk & t' & r' & p' & a' & E & Hr' & Hp' & Ha').
  apply emit_cases in E as (_ & Er & Ep & Ea & _).
  pose proof (radialHit_tStep (f_ray f) (f_grid f)
                (radial_step_has_transitioned st) (current_radial_voxel st)
                (f_v f) (f_rsvd_minus_v_squared f) (st_t st) (f_max_t f))
    as Hs. cbv zeta in Hs.
  unfold index_bounds. rewrite Er, Ep, Ea.
  pose proof (angular_wrap_range (current_polar_voxel st)
    (tStep (polarHit (f_ray f) (f_grid f)
       (RaySegment_updateAtTime (f_segment_P2 f) (st_t st) (f_ray f))
       (f_collinear_times f) (current_polar_voxel st) (st_t st) (f_max_t f)))
    _ Hp).
  pose proof (angular_wrap_range (current_azimuthal_voxel st)
    (tStep (azimuthalHit (f_ray f) (f_grid f)
       (RaySegment_updateAtTime (f_segment_P2 f) (st_t st) (f_ray f))
       (f_collinear_times f) (current_azimuthal_voxel st) (st_t st)
       (f_max_t f)))
    _ Ha).
  repeat split;
    destruct Hr' as [[_ ->] | [_ ->]]; destruct Hp' as [-> | ->];
    destruct Ha' as [-> | ->]; lia.
Qed.

Lemma lookup_cons {A : Type} (d x : A) (l : list A) (i : Z) :
  (1 <= i)%Z -> lookup d (x :: l) i = lookup d l (i - 1).
Proof.
  intros Hi. unfold lookup.
  replace (Z.of_nat (length (x :: l))) with (Z.of_nat (length l) + 1)%Z
    by (simpl length; lia).
  destruct (Z.ltb_spec i 0); [lia|].
  destruct (Z.ltb_spec (i - 1) 0); [lia|]. cbn [orb].
  destruct (Z.leb_spec (Z.of_nat (length l) + 1) i);
    destruct (Z.leb_spec (Z.of_nat (length l)) (i - 1)); try lia;
    [reflexivity|].
  replace (Z.to_nat i) with (S (Z.to_nat (i - 1))) by lia. reflexivity.
Qed.

Lemma lookup_head {A : Type} (d x : A) (l : list A) :
  lookup d (x :: l) 0 = x.
Proof.
  unfold lookup.
  replace (Z.of_nat (length (x :: l))) with (Z.of_nat (length l) + 1)%Z
    by (simpl length; lia).
  destruct (Z.leb_spec (Z.of_nat (length l) + 1) 0); [lia | reflexivity].
Qed.

Lemma radial_entrance_range (SED : T) (l : list T) :
  (0 <= radial_entrance SED l <= Z.of_nat (length l))%Z.
Proof.
  induction l as [|r tl IH]; cbn [radial_entrance length]; [lia|].
  rewrite Nat2Z.inj_succ. destruct (s_ltb SED r); lia.
Qed.

Lemma radial_entrance_prefix (SED : T) (l : list T) (i : Z) :
  (0 <= i < radial_entrance SED l)%Z ->
  s_ltb SED (lookup s_zero l i) = true.
Proof.
  revert i.
  induction l as [|r tl IH]; cbn [radial_entrance]; intros i Hi; [lia|].
  destruct (s_ltb SED r) eqn:E; [|lia].
  destruct (Z.eq_dec i 0) as [-> | Hne].
  - now rewrite lookup_head.
  - rewrite lookup_cons by lia. apply IH. lia.
Qed.

Lemma transform_into_length {A B : Type} (g : A -> B) (src : list A)
    (dst : list B) :
  length src = length dst -> length (transform_into g src dst) = length dst.
Proof.
  intros E. unfold transform_into.
  rewrite length_app, length_map, length_skipn. lia.
Qed.

Lemma boundary_segments_length (ray : Ray T) (grid : SphericalVoxelGrid T) :
  grid_wf grid ->
  Z.of_nat (length (fst (boundary_segments ray grid)))
  = (numPolarSections grid + 1)%Z
  /\ Z.of_nat (length (snd (boundary_segments ray grid)))
     = (numAzimuthalSections grid + 1)%Z.
Proof.
  intros ((Hr & Hp & Ha & _ & Hlp & Hla & Htp & Hta) & _).
  unfold boundary_segments, initializeVoxelBoundarySegments.
  destruct (ray_origin_is_outside_grid ray grid); simpl.
  - split; assumption.
  - rewrite !transform_into_length; rewrite ?repeat_length; lia.
Qed.

Lemma initializeAngularVoxelID_range (grid : SphericalVoxelGrid T) (n : Z)
    (rs : Vec3 T) (tbl : list (LineSegment T)) (a b c : T) :
  (1 <= n < 2 ^ 31)%Z -> Z.of_nat (length tbl) = (n + 1)%Z ->
  (to_size_t (initializeAngularVoxelID grid n rs tbl a b c) >=? n)%Z = false ->
  (0 <= initializeAngularVoxelID grid n rs tbl a b c < n)%Z.
Proof.
  intros Hn Hlen. unfold initializeAngularVoxelID.
  destruct (n =? 1)%Z; [lia|].
  destruct (s_eqb _ s_zero); [lia|].
  match goal with
  | |- context [calculateAngularVoxelIDFromPoints tbl ?p ?q] =>
      destruct (angular_voxel_id_range tbl p q) as [(H0 & H1) | E]
  end.
  - lia.
  - rewrite E. unfold to_size_t, size_t_modulus.
    rewrite Z.mod_small by lia. intros C.
    rewrite Z.geb_leb in C. apply Z.leb_gt in C. lia.
Qed.

Lemma rejects_false (ray : Ray T) (grid : SphericalVoxelGrid T) (max_t : T) :
  rejects ray grid max_t = false ->
  s_leb max_t s_zero = false
  /\ s_leb (entry_radius_squared ray grid) (rsvd_minus_v_squared_of ray grid)
     = false
  /\ s_ltb (t_ray_exit ray grid) s_zero = false
  /\ (to_size_t (initial_polar_voxel ray grid) >=? numPolarSections grid)%Z
     = false
  /\ (to_size_t (initial_azimuthal_voxel ray grid)
      >=? numAzimuthalSections grid)%Z = false.
Proof.
  unfold rejects. intros E.
  repeat (apply orb_false_elim in E as [E ?]). auto.
Qed.

Lemma initial_angular_range (ray : Ray T) (grid : SphericalVoxelGrid T)
    (max_t : T) :
  grid_wf grid -> rejects ray grid max_t = false ->
  (0 <= initial_polar_voxel ray grid < numPolarSections grid
   /\ 0 <= initial_azimuthal_voxel ray grid < numAzimuthalSections grid)%Z.
Proof.
  intros Hwf R.
  destruct (boundary_segments_length ray grid Hwf) as [Lp La].
  destruct Hwf as ((_ & Hp & Ha & _) & _).
  apply rejects_false in R as (_ & _ & _ & Rp & Ra).
  split; apply initializeAngularVoxelID_range; assumption.
Qed.

Lemma Forall_back_set_exit_t (P : SphericalVoxel T -> Prop)
    (vs : list (SphericalVoxel T)) (e : T) :
  (forall b, P b -> P (with_exit b e)) ->
  Forall P vs -> Forall P (back_set_exit_t vs e).
Proof.
  intros HP Hvs.
  destruct (snoc_cases vs) as [-> | (init & b & ->)]; [constructor|].
  rewrite back_set_exit_t_snoc.
  apply Forall_app in Hvs as [Hi Hb]. apply Forall_app. split; [exact Hi|].
  constructor; [|constructor]. apply HP. now inversion Hb.
Qed.

Lemma traverse_indices (f : Frame T) (Inv : LoopState T -> Prop)
    (Q : Z -> Z -> Z -> Prop) :
  (forall st st', Inv st -> loop_body f st = Continue st' -> Inv st') ->
  (forall st, Inv st ->
     Q (current_radial_voxel st) (current_polar_voxel st)
       (current_azimuthal_voxel st)) ->
  forall fuel st, Inv st ->
  Forall (fun v => Q (radial v) (polar v) (azimuthal v)) (voxels st) ->
  Forall (fun v => Q (radial v) (polar v) (azimuthal v))
         (emitted (traverse fuel f st)).
Proof.
  intros Hstep HQ fuel st Hst Hvs.
  set (Qv := fun v : SphericalVoxel T => Q (radial v) (polar v) (azimuthal v)).
  assert (Hexit : forall e b, Qv b -> Qv (with_exit b e))
    by (intros; assumption).
  destruct (traverse_reaches f (fun s => Inv s /\ Forall Qv (voxels s)))
    with (fuel := fuel) (st := st)
    as [(st0 & [_ H0] & ->) | (st0 & vs & [_ H0] & E & ->)]; simpl.
  - intros s s' [Hs Hf] E. split; [now apply (Hstep s)|].
    pose proof (Hstep s s' Hs E) as Hs'. apply HQ in Hs'.
    apply loop_body_Continue in E as (t & r & p & a & tr & E).
    apply emit_cases in E as (_ & Er & Ep & Ea & _ & [[_ ->] | [_ ->]]);
      [exact Hf|].
    unfold push_back. apply Forall_app. split.
    + apply Forall_back_set_exit_t; [apply Hexit | exact Hf].
    + constructor; [|constructor]. unfold Qv; simpl.
      now rewrite <- Er, <- Ep, <- Ea.
  - now split.
  - exact H0.
  - apply loop_body_Return in E. rewrite E.
    apply Forall_back_set_exit_t; [apply Hexit | exact H0].
Qed.

Lemma index_bounds_initial (ray : Ray T) (grid : SphericalVoxelGrid T)
    (max_t : T) :
  grid_wf grid -> rejects ray grid max_t = false ->
  index_bounds grid (initial_state ray grid).
Proof.
  intros Hwf Rj.
  pose proof (radial_entrance_range (squared_length (rsv_of ray grid))
                (delta_radii_sq grid)) as Hk.
  destruct (initial_angular_range ray grid max_t Hwf Rj) as [Hp Ha].
  unfold index_bounds, initial_state; cbn [current_radial_voxel
    current_polar_voxel current_azimuthal_voxel].
  split; [|split; assumption].
  unfold ray_origin_is_outside_grid, radial_entrance_voxel.
  destruct (Z.eqb_spec
              (radial_entrance (squared_length (rsv_of ray grid))
                 (delta_radii_sq grid)) 0);
    cbn [Z_of_bool]; lia.
Qed.

(** X20. Whatever the arithmetic (binary64 included), on a well-formed grid
    every emitted voxel has a radial index of at least 1 and angular indices
    within their ranges, also after a step that wraps around: the sum
    [current + tStep] is reduced modulo [N] as a [std::size_t]. *)
Theorem walk_lower_and_angular_ranges (fuel : nat) (ray : Ray T)
    (grid : SphericalVoxelGrid T) (max_t : T) :
  grid_wf grid ->
  Forall (fun v => (1 <= radial v
                    /\ 0 <= polar v <= numPolarSections grid - 1
                    /\ 0 <= azimuthal v <= numAzimuthalSections grid - 1)%Z)
         (emitted (walkSphericalVolume fuel ray grid max_t)).
Proof.
  intros Hwf.
  destruct (rejects ray grid max_t) eqn:Rj.
  - rewrite (walk_rejected fuel _ _ _ Rj). constructor.
  - rewrite (walk_accepted fuel _ _ _ Rj).
    pose proof (index_bounds_initial ray grid max_t Hwf Rj) as Hi0.
    destruct Hwf as ((_ & Hp & Ha & _) & _).
    set (f := initial_frame ray grid max_t).
    assert (Hq : forall st, index_bounds grid st ->
                   (1 <= current_radial_voxel st
                    /\ 0 <= current_polar_voxel st <= numPolarSections grid - 1
                    /\ 0 <= current_azimuthal_voxel st
                       <= numAzimuthalSections grid - 1)%Z)
      by (unfold index_bounds; intros; lia).
    apply (traverse_indices f (index_bounds grid)
             (fun r p a => (1 <= r
                            /\ 0 <= p <= numPolarSections grid - 1
                            /\ 0 <= a <= numAzimuthalSections grid - 1)%Z)).
    + intros st st' Hi E.
      pose proof (index_bounds_step f st st') as Hs.
      change (f_grid f) with grid in Hs. apply Hs; [lia | lia | ..];
        assumption.
    + exact Hq.
    + exact Hi0.
    + constructor; [|constructor]. apply (Hq (initial_state ray grid) Hi0).
Qed.

End Generic.

(** * Exact real arithmetic *)

Section Exact.

Local Open Scope R_scope.

Lemma Rltb_true (a b : R) : Rltb a b = true <-> a < b.
Proof. unfold Rltb. destruct (Rlt_dec a b); split; intros; easy. Qed.

Lemma Rltb_false (a b : R) : Rltb a b = false <-> b <= a.
Proof.
  unfold Rltb. destruct (Rlt_dec a b); split; intros; try easy; lra.
Qed.

Lemma Rleb_true (a b : R) : Rleb a b = true <-> a <= b.
Proof. unfold Rleb. destruct (Rle_dec a b); split; intros; easy. Qed.


Lemma Reqb_true (a b : R) : Reqb a b = true <-> a = b.
Proof. unfold Reqb. destruct (Req_dec_T a b); split; intros; easy. Qed.


(** C9. In exact real arithmetic, for every ray whose direction has a
    strictly positive component and every scalar [s],
    [timeOfIntersectionAt s = s]. *)
Theorem C9_time_of_intersection_identity (o d : Vec3 R) (s : R) :
  0 < vx d \/ 0 < vy d \/ 0 < vz d ->
  timeOfIntersectionAt (mkRay o d) s = s.
Proof.
  intros Hpos.
  unfold timeOfIntersectionAt, mkRay; simpl.
  destruct (Rltb 0 (vx d)) eqn:Ex.
  - apply Rltb_true in Ex. field. lra.
  - destruct (Rltb 0 (vy d)) eqn:Ey.
    + apply Rltb_true in Ey. field. lra.
    + apply Rltb_false in Ex, Ey.
      assert (0 < vz d) by lra. field. lra.
Qed.

(** A ray whose [x] direction is negative and whose [y] direction is
    positive: the time of [3] is [3]. *)
Lemma C9_witness :
  timeOfIntersectionAt (mkRay (rvec (-2) 0 0) (rvec (-3 / 5) (4 / 5) 0)) 3 = 3.
Proof.
  apply C9_time_of_intersection_identity. right. left. cbn. lra.
Defined.

Lemma s_max_R (a b : R) : s_max a b = Rmax a b.
Proof.
  unfold s_max; simpl. unfold Rltb, Rmax.
  destruct (Rlt_dec a b), (Rle_dec a b); try reflexivity; lra.
Qed.

Lemma isEqual_R (a b : R) :
  isEqual a b = true
  <-> Rabs (a - b)
      <= 1 / 1000000000 + 1 / 1000000000 * Rmax (Rabs a) (Rabs b).
Proof.
  unfold isEqual. rewrite s_max_R. simpl. apply Rleb_true.
Qed.








Lemma vector_index_outside (ray : Ray R) (grid : SphericalVoxelGrid R) :
  radial_entrance_voxel ray grid = 0%Z -> vector_index ray grid = 0%Z.
Proof.
  intros E. unfold vector_index, ray_origin_is_outside_grid. now rewrite E.
Qed.





End Exact.

(** * The program on binary64 inputs *)

(** The runs below do not depend on the orientation of the vectors
    [centerToPolarBound] and [centerToAzimuthalBound], which the sources do
    not fix: [inward_bounds] replaces them by the vectors from the boundary
    points to the centre. *)
Lemma ray_outward_run_inward_bounds :
  walkSphericalVolume 50 ray_outward (inward_bounds grid_shells) 1%float
  = walkSphericalVolume 50 ray_outward grid_shells 1%float.
Proof. vm_compute. reflexivity. Qed.

Lemma ray_through_run_inward_bounds :
  walkSphericalVolume 50 ray_through (inward_bounds grid_shells) 0.25%float
  = walkSphericalVolume 50 ray_through grid_shells 0.25%float.
Proof. vm_compute. reflexivity. Qed.

(** With a quarter of the diameter as budget the effective bound is [6]; the
    loop stops in the second shell and closes it at [t_ray_exit = 12],
    beyond the bound. *)
Lemma short_budget_run :
  effective_max_t ray_through grid_shells 0.25%float = 6%float
  /\ walkSphericalVolume 50 ray_through grid_shells 0.25%float
     = Returned [mkVoxel 1 0 0 0 5; mkVoxel 2 0 0 5 12]%float.
Proof. split; vm_compute; reflexivity. Qed.

(** C1 (the code departs from the claim). In the spec's first scenario the
    origin is outside the grid and the ray enters the outermost sphere at
    [t_entry = 1.0], yet the first voxel of the output has [enter_t = 0],
    below [t_entry]: the first voxel is pushed without an entry time, while
    every later one is pushed with [enter_t = t]. *)
Theorem C1_first_enter_t_scenario1 :
  ray_origin_is_outside_grid ray_scenario1 grid_scenario = true
  /\ t_ray_entrance ray_scenario1 grid_scenario = 1%float
  /\ forall fuel : nat,
       exists v rest,
         emitted (walkSphericalVolume fuel ray_scenario1 grid_scenario 1%float)
         = v :: rest
         /\ enter_t v = 0%float
         /\ PrimFloat.ltb (enter_t v)
              (t_ray_entrance ray_scenario1 grid_scenario) = true.
Proof.
  split; [vm_compute; reflexivity|].
  split; [vm_compute; reflexivity|].
  intros fuel.
  assert (R : rejects ray_scenario1 grid_scenario 1%float = false)
    by (vm_compute; reflexivity).
  destruct (walk_emitted fuel _ _ _ R) as (Hne & _ & _ & Hhd).
  destruct (emitted _) as [|v rest]; [contradiction|].
  exists v, rest. simpl in Hhd. rewrite Hhd.
  split; [reflexivity|]. split; [reflexivity|].
  vm_compute. reflexivity.
Qed.

(** C2 (the code departs from the claim). For the direction [(-1, 0, 0)]
    the flag [xDirectionIsNonZero] is false, because the constructor tests
    [direction.x() > 0]; [timeOfIntersectionAt] then falls through to the
    [z] component, which is zero, and yields NaN, where the claim's formula
    on the [x] component yields the scalar itself. *)
Theorem C2_negative_x_direction :
  vx (direction ray_negative_x) = (-1)%float
  /\ xDirectionIsNonZero ray_negative_x = false
  /\ timeOfIntersectionAt ray_negative_x 1%float = nan
  /\ timeOfIntersectionAt_spec ray_negative_x 1%float = 1%float.
Proof. repeat split; vm_compute; reflexivity. Qed.

(** C4 (the code departs from the claim). From inside the third shell,
    moving outward, the first call of [radialHit] at [t = 0] returns
    [tMax = -0.5] with [tStep = -1] (the exit time of a sphere already
    behind the origin) instead of the sentinel; the iteration changes the
    radial index from 3 to 2 and sets [t] back to [-0.5].  From a point on
    the sphere of radius 2 it returns [tMax = 0 = t], again not the
    sentinel. *)
Theorem C4_radial_hit_not_after_t :
  let f := initial_frame ray_outward grid_shells 1%float in
  let st := initial_state ray_outward grid_shells in
  PrimFloat.eqb (st_t st) 0 = true
  /\ current_radial_voxel st = 3%Z
  /\ radialHit ray_outward grid_shells false 3 (f_v f)
       (f_rsvd_minus_v_squared f) (st_t st) (f_max_t f)
     = (mkHit (-0.5)%float (-1), true)
  /\ (exists st', loop_body f st = Continue st'
                  /\ st_t st' = (-0.5)%float
                  /\ current_radial_voxel st' = 2%Z
                  /\ PrimFloat.ltb (st_t st') (st_t st) = true)
  /\ (let f' := initial_frame ray_from_boundary grid_shells 1%float in
      let st0 := initial_state ray_from_boundary grid_shells in
      exists h, radialHit ray_from_boundary grid_shells false 2 (f_v f')
                  (f_rsvd_minus_v_squared f') (st_t st0) (f_max_t f')
                = (h, true)
                /\ tStep h = (-1)%Z
                /\ PrimFloat.eqb (tMax h) (st_t st0) = true).
Proof.
  intros f st.
  split; [vm_compute; reflexivity|].
  split; [vm_compute; reflexivity|].
  split; [vm_compute; reflexivity|].
  split.
  - exists (mkState (-0.5)%float 2 0 0 true
              [mkVoxel 3 0 0 (0)%float (-0.5)%float;
               mkVoxel 2 0 0 (-0.5)%float 0%float]).
    split; [vm_compute; reflexivity|].
    split; [reflexivity|]. split; [reflexivity|].
    vm_compute. reflexivity.
  - intros f' st0. exists (mkHit 0%float (-1)).
    split; [vm_compute; reflexivity|].
    split; [reflexivity|]. vm_compute. reflexivity.
Qed.

(** C5 (the code departs from the claim). The same ray yields three voxels:
    the first is entered at [0] and left at [-0.5], the last is entered at
    [1.5] and left at [0.5]; in both [enter_t > exit_t]. *)
Theorem C5_enter_after_exit :
  walkSphericalVolume 50 ray_outward grid_shells 1%float
  = Returned [mkVoxel 3 0 0 0 (-0.5); mkVoxel 2 0 0 (-0.5) 1.5;
              mkVoxel 1 0 0 1.5 0.5]%float
  /\ PrimFloat.ltb (-0.5) 0 = true
  /\ PrimFloat.ltb 0.5 1.5 = true.
Proof. repeat split; vm_compute; reflexivity. Qed.

(** A ray that touches the outermost sphere of [grid_shells] (at [t = 8], in
    the point [(0, 4, 0)]) is rejected by the test
    [entry_radius_squared <= rsvd_minus_v_squared]. *)
Lemma tangent_ray_run :
  meets_outer_sphere ray_tangent grid_shells
  /\ PrimFloat.leb (entry_radius_squared ray_tangent grid_shells)
       (rsvd_minus_v_squared_of ray_tangent grid_shells) = true
  /\ walkSphericalVolume 50 ray_tangent grid_shells 1%float = Returned [].
Proof.
  split; [|split; vm_compute; reflexivity].
  exists 8%float. split; vm_compute; reflexivity.
Qed.

(** A ray that points away from [grid_shells] along [-y] gets NaN for
    [t_ray_exit], passes the test [t_ray_exit < 0] and yields one voxel. *)
Lemma ray_away_run :
  t_ray_exit ray_away grid_shells = nan
  /\ rejects ray_away grid_shells 1%float = false
  /\ walkSphericalVolume 50 ray_away grid_shells 1%float
     = Returned [mkVoxel 1 0 0 0%float nan].
Proof. repeat split; vm_compute; reflexivity. Qed.

(** C3 (the code departs from the claim). The ray from [(2,0,0)] along [-x]
    runs straight through the centre of the spec's grid: it meets the
    outermost sphere (the point at [t = 2] is the centre) and [max_t = 1] is
    positive, yet the output is empty after any number of iterations.  No
    component of the direction is positive, so no flag of the ray is set,
    [t_ray_exit] and [t_ray_entrance] are NaN (see C2), the test
    [t_ray_exit < 0] does not fire, the angular search on NaN coordinates
    finds no arc and returns [6], and the guard on the polar index returns
    the empty vector.  The same line followed along [+x] (scenario 1) is not
    rejected. *)
Theorem C3_through_centre_empty :
  s_leb 1%float s_zero = false
  /\ meets_outer_sphere ray_inward_negative_x grid_scenario
  /\ xDirectionIsNonZero ray_inward_negative_x = false
  /\ t_ray_exit ray_inward_negative_x grid_scenario = nan
  /\ t_ray_entrance ray_inward_negative_x grid_scenario = nan
  /\ initial_polar_voxel ray_inward_negative_x grid_scenario = 6%Z
  /\ (forall fuel : nat,
        walkSphericalVolume fuel ray_inward_negative_x grid_scenario 1%float
        = Returned [])
  /\ rejects ray_scenario1 grid_scenario 1%float = false.
Proof.
  split; [vm_compute; reflexivity|].
  split; [exists 2%float; split; vm_compute; reflexivity|].
  split; [vm_compute; reflexivity|].
  split; [vm_compute; reflexivity|].
  split; [vm_compute; reflexivity|].
  split; [vm_compute; reflexivity|].
  split; [|vm_compute; reflexivity].
  intros fuel. apply walk_rejected. vm_compute. reflexivity.
Qed.

(** C7, as stated, fails: on the five boundary points of [grid_scenario]
    ([N = 4]) and a query point that lies in no arc, the search returns
    [6 = N + 2], not [N + 1]. *)
Lemma C7_no_match_counterexample :
  ~ (forall (tbl : list (LineSegment float)) (p1 p2 : float) (N : Z),
       Z.of_nat (length tbl) = (N + 1)%Z ->
       (forall j, (0 <= j < N)%Z -> ~ arc_matches tbl p1 p2 j) ->
       calculateAngularVoxelIDFromPoints tbl p1 p2 = (N + 1)%Z).
Proof.
  intros Claim.
  specialize (Claim (pMaxPolar grid_scenario) 100%float 100%float 4%Z).
  assert (E : calculateAngularVoxelIDFromPoints (pMaxPolar grid_scenario)
                100%float 100%float = 6%Z) by (vm_compute; reflexivity).
  rewrite E in Claim.
  assert (Hfalse : 6%Z = (4 + 1)%Z); [|discriminate Hfalse].
  apply Claim; [reflexivity|].
  intros j Hj Hm.
  assert (Hcases : j = 0%Z \/ j = 1%Z \/ j = 2%Z \/ j = 3%Z) by lia.
  destruct Hcases as [-> | [-> | [-> | ->]]];
    vm_compute in Hm; discriminate Hm.
Qed.

(** The run of scenario 4 does not depend on the orientation of the vectors
    to the bounds either. *)
Lemma ray_from_centre_run_inward_bounds :
  walkSphericalVolume 50 ray_from_centre (inward_bounds grid_scenario) 1%float
  = walkSphericalVolume 50 ray_from_centre grid_scenario 1%float.
Proof. vm_compute. reflexivity. Qed.

(** C10 (the code departs from the claim). In scenario 4 the origin is the
    centre of the grid and the ray leaves the outermost sphere at [t = 1];
    the loop returns four voxels and closes the last one, entered at [0.75],
    at [0.25]: [t_ray_exit] is computed from [entry_radius_squared], here
    the square of the innermost radius [0.25], and is the exit time with the
    outermost sphere only for an origin outside the grid.  In the grid of C4,
    from inside the third shell, the last voxel is closed at [0.5] while the
    ray leaves the outermost sphere at [2.5]. *)
Theorem C10_inner_origin_last_exit :
  ray_origin_is_outside_grid ray_from_centre grid_scenario = false
  /\ walkSphericalVolume 50 ray_from_centre grid_scenario 1%float
     = Returned [mkVoxel 4 0 0 0 0.25; mkVoxel 3 0 0 0.25 0.5;
                 mkVoxel 2 0 0 0.5 0.75; mkVoxel 1 0 0 0.75 0.25]%float
  /\ entry_radius_squared ray_from_centre grid_scenario = 0.0625%float
  /\ deltaRadiiSquared grid_scenario 0 = 1%float
  /\ t_ray_exit ray_from_centre grid_scenario = 0.25%float
  /\ t_exit_outermost ray_from_centre grid_scenario = 1%float
  /\ ray_origin_is_outside_grid ray_outward grid_shells = false
  /\ exit_t (last (emitted (walkSphericalVolume 50 ray_outward grid_shells
                              1%float))
                  zero_voxel) = 0.5%float
  /\ t_ray_exit ray_outward grid_shells = 0.5%float
  /\ t_exit_outermost ray_outward grid_shells = 2.5%float.
Proof. repeat split; vm_compute; reflexivity. Qed.


(** * Further properties of the traversal *)

Section Traversal.

Context {T : Type} `{Scalar T}.

(** *** Lists read two elements at a time *)

Lemma neighbours_nth {A : Type} (R : A -> A -> Prop) (l : list A) (i : nat)
    (a b : A) :
  neighbours R l -> nth_error l i = Some a -> nth_error l (S i) = Some b ->
  R a b.
Proof.
  revert i. induction l as [|x tl IH]; intros i Hn Ha Hb.
  - destruct i; discriminate Ha.
  - destruct tl as [|y tl']; [destruct i; discriminate Hb|].
    destruct Hn as [Hxy Hn]. destruct i as [|i].
    + simpl in Ha, Hb. inversion Ha; inversion Hb; subst. exact Hxy.
    + apply (IH i); assumption.
Qed.

Lemma neighbours_snoc {A : Type} (R : A -> A -> Prop) (l : list A) (d x : A) :
  neighbours R l -> (l <> [] -> R (last l d) x) -> neighbours R (l ++ [x]).
Proof.
  induction l as [|a tl IH]; intros Hn Hl; [exact I|].
  destruct tl as [|b tl'].
  - simpl. split; [|exact I]. apply Hl. discriminate.
  - destruct Hn as [Hab Hn]. change ((a :: b :: tl') ++ [x])
      with (a :: (b :: tl') ++ [x]).
    change (R a b /\ neighbours R ((b :: tl') ++ [x])).
    split; [exact Hab|]. apply IH; [exact Hn|].
    intros _. apply Hl. discriminate.
Qed.

Lemma last_app_cons {A : Type} (l1 l2 : list A) (x d : A) :
  last (l1 ++ x :: l2) d = last (x :: l2) d.
Proof.
  induction l1 as [|a tl IH]; [reflexivity|].
  rewrite <- IH. simpl. destruct (tl ++ x :: l2) eqn:E; [|reflexivity].
  apply app_eq_nil in E as [_ E]. discriminate E.
Qed.

Lemma chained_neighbours (vs : list (SphericalVoxel T)) :
  chained vs -> neighbours (fun a b => exit_t a = enter_t b) vs.
Proof.
  induction vs as [|a tl IH]; intros Hc; [exact I|].
  destruct tl as [|b tl']; [exact I|].
  destruct Hc as [Hab Hc]. split; [exact Hab|]. now apply IH.
Qed.

Lemma map_radial_back_set_exit_t (vs : list (SphericalVoxel T)) (e : T) :
  map radial (back_set_exit_t vs e) = map radial vs.
Proof.
  destruct (snoc_cases vs) as [-> | (init & b & ->)]; [reflexivity|].
  rewrite back_set_exit_t_snoc, !map_app. reflexivity.
Qed.

Lemma length_back_set_exit_t (vs : list (SphericalVoxel T)) (e : T) :
  length (back_set_exit_t vs e) = length vs.
Proof.
  destruct (snoc_cases vs) as [-> | (init & b & ->)]; [reflexivity|].
  rewrite back_set_exit_t_snoc, !length_app. reflexivity.
Qed.

Lemma last_map_radial (vs : list (SphericalVoxel T)) :
  last (map radial vs) 0%Z = radial (back vs).
Proof.
  unfold back. induction vs as [|a tl IH]; [reflexivity|].
  destruct tl as [|b tl']; [reflexivity|]. exact IH.
Qed.

(** *** The radial index along one iteration *)

(** What an iteration that continues does to the flag, to the radial index
    and to the radial indices of the vector. *)
Lemma radial_step_shape (f : Frame T) (st st' : LoopState T) :
  loop_body f st = Continue st' ->
  let rh := radialHit (f_ray f) (f_grid f) (radial_step_has_transitioned st)
              (current_radial_voxel st) (f_v f) (f_rsvd_minus_v_squared f)
              (st_t st) (f_max_t f) in
  radial_step_has_transitioned st' = snd rh
  /\ (current_radial_voxel st' = current_radial_voxel st
      \/ current_radial_voxel st'
         = (current_radial_voxel st + tStep (fst rh))%Z)
  /\ (map radial (voxels st') = map radial (voxels st)
      \/ map radial (voxels st')
         = map radial (voxels st) ++ [current_radial_voxel st']).
Proof.
  intros E. cbv zeta.
  apply loop_body_step in E as (_ & t' & r' & p' & a' & E & Hr' & _ & _).
  apply emit_cases in E as (_ & Er & _ & _ & Etr & Hv).
  split; [exact Etr|]. split.
  - rewrite Er. destruct Hr' as [[_ ->] | [_ ->]]; auto.
  - destruct Hv as [[_ ->] | [_ ->]]; [now left | right].
    unfold push_back. rewrite map_app, map_radial_back_set_exit_t, Er.
    reflexivity.
Qed.

(** How the flag and the step of [radialHit] go together. *)
Lemma radialHit_flag (ray : Ray T) (grid : SphericalVoxelGrid T)
    (tr : bool) (k : Z) (v rmv2 t max_t : T) :
  let h := fst (radialHit ray grid tr k v rmv2 t max_t) in
  let tr' := snd (radialHit ray grid tr k v rmv2 t max_t) in
  (tStep h = 1%Z -> tr' = false)
  /\ (tStep h = (-1)%Z -> tr' = true)
  /\ (tStep h = (-1)%Z \/ tStep h = 0%Z \/ tStep h = 1%Z)
  /\ (tr = true -> tr' = true).
Proof.
  cbv zeta.
  destruct (radialHit_cases ray grid tr k v rmv2 t max_t)
    as [(Htr & [E | E]) | [(Htr0 & Htr & E) | (Htr0 & Htr & E & _)]];
    cbv zeta in *; rewrite ?E, ?Htr, ?Htr0; cbn [tStep no_hit];
    repeat split; intros; try discriminate; try lia; auto.
Qed.

(** *** Properties of the emitted sequence *)

(** X1. In the output of [walkSphericalVolume], after any number of
    iterations, the exit time of every voxel but the last is the entry time
    of the next one. *)
Theorem walk_exit_is_next_enter (fuel : nat) (ray : Ray T)
    (grid : SphericalVoxelGrid T) (max_t : T) (i : nat)
    (a b : SphericalVoxel T) :
  nth_error (emitted (walkSphericalVolume fuel ray grid max_t)) i = Some a ->
  nth_error (emitted (walkSphericalVolume fuel ray grid max_t)) (S i)
  = Some b ->
  exit_t a = enter_t b.
Proof.
  apply (neighbours_nth (fun a b => exit_t a = enter_t b)).
  apply chained_neighbours, walk_chained.
Qed.

Lemma radial_profile_initial (ray : Ray T) (grid : SphericalVoxelGrid T) :
  radial_profile (initial_state ray grid).
Proof.
  split; [apply loop_shape_initial|]. split; [exact I|].
  exists (map radial (voxels (initial_state ray grid))), [].
  rewrite app_nil_r. repeat split; exact I.
Qed.

Lemma radial_profile_step (f : Frame T) (st st' : LoopState T) :
  radial_profile st -> loop_body f st = Continue st' -> radial_profile st'.
Proof.
  intros (Hshape & Hadj & l1 & l2 & El & H1 & H2 & Hflag) E.
  pose proof (loop_shape_step f st st' Hshape E) as Hshape'.
  pose proof (radial_step_shape f st st' E) as Hs. cbv zeta in Hs.
  destruct Hs as (Etr & Hr & Hv).
  pose proof (radialHit_flag (f_ray f) (f_grid f)
                (radial_step_has_transitioned st) (current_radial_voxel st)
                (f_v f) (f_rsvd_minus_v_squared f) (st_t st) (f_max_t f))
    as Hc. cbv zeta in Hc.
  destruct Hc as (Hc1 & Hcm & Hc3 & Hct).
  assert (Hlast : last (map radial (voxels st)) 0%Z = current_radial_voxel st).
  { rewrite last_map_radial. apply Hshape. }
  split; [exact Hshape'|].
  destruct Hv as [Ev | Ev].
  - (* nothing is emitted *)
    rewrite Ev. split; [exact Hadj|].
    destruct (radial_step_has_transitioned st') eqn:Etr'.
    + exists l1, l2. split; [exact El|]. split; [exact H1|].
      split; [exact H2|]. intros C; discriminate C.
    + exists l1, l2. split; [exact El|]. split; [exact H1|].
      split; [exact H2|]. intros _. apply Hflag.
      destruct (radial_step_has_transitioned st) eqn:Etr0; [|reflexivity].
      rewrite (Hct eq_refl) in Etr. discriminate Etr.
  - (* a voxel is emitted *)
    rewrite Ev. split.
    + apply (neighbours_snoc _ _ 0%Z); [exact Hadj|]. intros _.
      rewrite Hlast. destruct Hr as [-> | ->]; lia.
    + destruct (radial_step_has_transitioned st') eqn:Etr'.
      * (* the flag is set: the index did not rise *)
        assert (Hle : (current_radial_voxel st' <= current_radial_voxel st)%Z).
        { destruct Hr as [-> | ->]; [lia|].
          destruct Hc3 as [E1 | [E1 | E1]]; try lia.
          pose proof (Hc1 E1) as C. rewrite <- Etr in C. congruence. }
        destruct l2 as [|x l2'].
        -- exists l1, [current_radial_voxel st'].
           rewrite El, app_nil_r. split; [reflexivity|].
           split; [exact H1|]. split; [exact I|]. intros C; discriminate C.
        -- exists l1, ((x :: l2') ++ [current_radial_voxel st']).
           rewrite El, <- app_assoc. split; [reflexivity|].
           split; [exact H1|]. split; [|intros C; discriminate C].
           apply (neighbours_snoc _ _ 0%Z); [exact H2|]. intros _.
           rewrite El in Hlast.
           rewrite last_app_cons in Hlast. rewrite Hlast. lia.
      * (* the flag is clear: the index did not fall *)
        assert (Htr0 : radial_step_has_transitioned st = false).
        { destruct (radial_step_has_transitioned st) eqn:Etr0; [|reflexivity].
          rewrite (Hct eq_refl) in Etr. discriminate Etr. }
        assert (Hge : (current_radial_voxel st <= current_radial_voxel st')%Z).
        { destruct Hr as [-> | ->]; [lia|].
          destruct Hc3 as [E1 | [E1 | E1]]; try lia.
          pose proof (Hcm E1) as C. rewrite <- Etr in C. congruence. }
        rewrite (Hflag Htr0), app_nil_r in El.
        exists (l1 ++ [current_radial_voxel st']), [].
        rewrite El, app_nil_r. split; [reflexivity|].
        split; [|split; [exact I | reflexivity]].
        apply (neighbours_snoc _ _ 0%Z); [exact H1|]. intros _.
        rewrite <- El, Hlast. exact Hge.
Qed.

Lemma walk_radial_profile (fuel : nat) (ray : Ray T)
    (grid : SphericalVoxelGrid T) (max_t : T) :
  let rs := map radial (emitted (walkSphericalVolume fuel ray grid max_t)) in
  neighbours (fun a b => Z.abs (b - a) <= 1)%Z rs
  /\ exists l1 l2, rs = l1 ++ l2 /\ neighbours Z.le l1 /\ neighbours Z.ge l2.
Proof.
  cbv zeta. destruct (rejects ray grid max_t) eqn:Rj.
  - rewrite (walk_rejected fuel _ _ _ Rj). split; [exact I|].
    exists [], []. repeat split; exact I.
  - rewrite (walk_accepted fuel _ _ _ Rj).
    set (f := initial_frame ray grid max_t).
    destruct (traverse_reaches f radial_profile (radial_profile_step f) fuel
                (initial_state ray grid) (radial_profile_initial ray grid))
      as [(st0 & H0 & ->) | (st0 & vs & H0 & E & ->)]; simpl.
    + destruct H0 as (_ & Hadj & l1 & l2 & El & H1 & H2 & _).
      split; [exact Hadj|]. now exists l1, l2.
    + apply loop_body_Return in E. rewrite E, map_radial_back_set_exit_t.
      destruct H0 as (_ & Hadj & l1 & l2 & El & H1 & H2 & _).
      split; [exact Hadj|]. now exists l1, l2.
Qed.

(** X2. The radial indices of two consecutive emitted voxels differ by at
    most one: [radialHit] only steps by [-1], [0] or [1]. *)
Theorem walk_radial_contiguous (fuel : nat) (ray : Ray T)
    (grid : SphericalVoxelGrid T) (max_t : T) :
  neighbours (fun a b => Z.abs (b - a) <= 1)%Z
    (map radial (emitted (walkSphericalVolume fuel ray grid max_t))).
Proof. apply walk_radial_profile. Qed.

(** X3. The radial indices of the emitted voxels first do not decrease and
    then do not increase: once [radial_step_has_transitioned] is set it
    stays set and the radial index no longer rises. *)
Theorem walk_radial_unimodal (fuel : nat) (ray : Ray T)
    (grid : SphericalVoxelGrid T) (max_t : T) :
  exists l1 l2,
    map radial (emitted (walkSphericalVolume fuel ray grid max_t)) = l1 ++ l2
    /\ neighbours Z.le l1 /\ neighbours Z.ge l2.
Proof. apply walk_radial_profile. Qed.


(** *** The first voxel *)

Lemma radial_entrance_stop (SED : T) (l : list T) :
  (radial_entrance SED l < Z.of_nat (length l))%Z ->
  s_ltb SED (lookup s_zero l (radial_entrance SED l)) = false.
Proof.
  induction l as [|r tl IH]; cbn [radial_entrance length]; [lia|].
  rewrite Nat2Z.inj_succ. destruct (s_ltb SED r) eqn:E; intros Hlt.
  - pose proof (radial_entrance_range SED tl) as Hr.
    rewrite lookup_cons by lia.
    replace (1 + radial_entrance SED tl - 1)%Z with (radial_entrance SED tl)
      by lia.
    apply IH. lia.
  - now rewrite lookup_head.
Qed.

(** X4. The scan for the radial entrance voxel returns the number [k] of
    leading entries of the table of squared radii that exceed [SED]: every
    entry before [k] exceeds [SED], and the entry at [k], if the table has
    one, does not. *)
Theorem radial_entrance_scan (SED : T) (radii_sq : list T) :
  let k := radial_entrance SED radii_sq in
  (0 <= k <= Z.of_nat (length radii_sq))%Z
  /\ (forall i, (0 <= i < k)%Z -> s_ltb SED (lookup s_zero radii_sq i) = true)
  /\ ((k < Z.of_nat (length radii_sq))%Z ->
      s_ltb SED (lookup s_zero radii_sq k) = false).
Proof.
  cbv zeta. split; [apply radial_entrance_range|]. split.
  - intros i Hi. now apply radial_entrance_prefix.
  - apply radial_entrance_stop.
Qed.

Lemma first_indices_step (f : Frame T) (st st' : LoopState T) :
  voxels st <> [] -> loop_body f st = Continue st' ->
  first_indices (voxels st') = first_indices (voxels st).
Proof.
  intros Hne E.
  apply loop_body_Continue in E as (t & r & p & a & tr & E).
  apply emit_cases in E as (_ & _ & _ & _ & _ & [[_ ->] | [_ ->]]);
    [reflexivity|].
  destruct (snoc_cases (voxels st)) as [E0 | (init & b & ->)];
    [contradiction|].
  rewrite back_set_exit_t_snoc. unfold push_back, first_indices.
  destruct init; reflexivity.
Qed.

Lemma first_indices_back_set_exit_t (vs : list (SphericalVoxel T)) (e : T) :
  first_indices (back_set_exit_t vs e) = first_indices vs.
Proof.
  destruct (snoc_cases vs) as [-> | (init & b & ->)]; [reflexivity|].
  rewrite back_set_exit_t_snoc. unfold first_indices.
  destruct init; reflexivity.
Qed.

(** X5. When no early exit fires, the first emitted voxel carries the
    indices found by the initialisation, whatever the loop does afterwards:
    the radial index is the entrance voxel, plus one when the origin is
    outside the grid (so [1] in that case), and the angular indices are
    those of [initializeAngularVoxelID]. *)
Theorem walk_first_voxel (fuel : nat) (ray : Ray T)
    (grid : SphericalVoxelGrid T) (max_t : T) :
  rejects ray grid max_t = false ->
  exists v rest,
    emitted (walkSphericalVolume fuel ray grid max_t) = v :: rest
    /\ radial v = (radial_entrance_voxel ray grid
                   + Z_of_bool (ray_origin_is_outside_grid ray grid))%Z
    /\ (ray_origin_is_outside_grid ray grid = true -> radial v = 1%Z)
    /\ polar v = initial_polar_voxel ray grid
    /\ azimuthal v = initial_azimuthal_voxel ray grid.
Proof.
  intros Rj.
  destruct (walk_emitted fuel ray grid max_t Rj) as (Hne & _).
  rewrite (walk_accepted fuel _ _ _ Rj) in *.
  set (f := initial_frame ray grid max_t) in *.
  set (Inv := fun st : LoopState T =>
                voxels st <> []
                /\ first_indices (voxels st)
                   = first_indices (voxels (initial_state ray grid))).
  assert (Hstep : forall st st', Inv st -> loop_body f st = Continue st' ->
                                 Inv st').
  { intros st st' [H1 H2] E. split.
    - apply loop_body_Continue in E as (t & r & p & a & tr & E).
      apply emit_cases in E as (_ & _ & _ & _ & _ & [[_ Ev] | [_ Ev]]);
        rewrite Ev; [exact H1|].
      unfold push_back. intros C. apply app_eq_nil in C as [_ C].
      discriminate C.
    - rewrite <- H2. now apply (first_indices_step f). }
  assert (Hfirst : first_indices (emitted (traverse fuel f
                                             (initial_state ray grid)))
                   = first_indices (voxels (initial_state ray grid))).
  { destruct (traverse_reaches f Inv Hstep fuel (initial_state ray grid))
      as [(st0 & [_ H0] & ->) | (st0 & vs & [_ H0] & E & ->)]; simpl.
    - split; [discriminate | reflexivity].
    - exact H0.
    - apply loop_body_Return in E.
      now rewrite E, first_indices_back_set_exit_t. }
  destruct (emitted (traverse fuel f (initial_state ray grid)))
    as [|v rest]; [contradiction|].
  exists v, rest. split; [reflexivity|].
  unfold first_indices, initial_state in Hfirst; simpl in Hfirst.
  injection Hfirst as Hr Hp Ha.
  split; [exact Hr|]. split; [|split; assumption].
  intros Hout. rewrite Hr. unfold ray_origin_is_outside_grid in *.
  apply Z.eqb_eq in Hout. rewrite Hout. reflexivity.
Qed.


(** *** The angular hits *)

Lemma angularHit_contract (grid : SphericalVoxelGrid T) (ray : Ray T)
    (uv_min uv_max uw_min uw_max vw_min vw_max : T) (seg : RaySegment T)
    (ct : T * T) (t max_t d2 c2 : T) (P_max : list (LineSegment T))
    (cur : Z) :
  let h := angularHit grid ray uv_min uv_max uw_min uw_max vw_min vw_max
             seg ct t max_t d2 c2 P_max cur in
  h = no_hit
  \/ (s_ltb t (tMax h) = true /\ isEqual t (tMax h) = false
      /\ s_ltb (tMax h) max_t = true
      /\ (tStep h = 1%Z \/ tStep h = (-1)%Z))
  \/ exists t_min,
       s_ltb t t_min = true /\ isEqual t t_min = false
       /\ s_ltb t_min max_t = true /\ isEqual t_min (tMax h) = true.
Proof.
  unfold angularHit. cbv zeta.
  match goal with
  | |- context [let '(a, b) := ?p in _] => destruct p as [t_min ii_min]
  end.
  match goal with
  | |- context [let '(a, b) := ?p in _] => destruct p as [t_max ii_max]
  end.
  set (wmax := (s_ltb t t_max && negb (isEqual t t_max)
                && s_ltb t_max max_t)%bool).
  set (wmin := (s_ltb t t_min && negb (isEqual t t_min)
                && s_ltb t_min max_t)%bool).
  assert (Hmax : wmax = true ->
                 s_ltb t t_max = true /\ isEqual t t_max = false
                 /\ s_ltb t_max max_t = true).
  { unfold wmax. intros E. apply andb_prop in E as [E E3].
    apply andb_prop in E as [E1 E2]. apply negb_true_iff in E2. auto. }
  assert (Hmin : wmin = true ->
                 s_ltb t t_min = true /\ isEqual t t_min = false
                 /\ s_ltb t_min max_t = true).
  { unfold wmin. intros E. apply andb_prop in E as [E E3].
    apply andb_prop in E as [E1 E2]. apply negb_true_iff in E2. auto. }
  clearbody wmax wmin.
  repeat match goal with
         | |- context [if ?c then _ else _] => destruct c eqn:?
         end; cbn [tMax tStep]; auto;
    repeat match goal with
           | E : (_ && _)%bool = true |- _ => apply andb_prop in E as [? ?]
           end;
    try (right; left; destruct Hmax as (? & ? & ?); now auto);
    try (right; left; destruct Hmin as (? & ? & ?); now auto).
  all: right; right; exists t_min; destruct Hmin as (? & ? & ?); auto.
Qed.

(** X6. A polar or an azimuthal hit is the sentinel [{DOUBLE_MAX, 0}], or
    a boundary time strictly between [t] and [max_t], not [isEqual] to [t],
    with a step of [+1] or [-1], or (when both boundaries are met at the
    same time, as through the centre) a time [isEqual] to one strictly
    between [t] and [max_t]. *)
Theorem angular_hits_contract (ray : Ray T) (grid : SphericalVoxelGrid T)
    (seg : RaySegment T) (ct : T * T) (cur : Z) (t max_t : T) :
  let within (h : HitParameters T) :=
    h = no_hit
    \/ (s_ltb t (tMax h) = true /\ isEqual t (tMax h) = false
        /\ s_ltb (tMax h) max_t = true
        /\ (tStep h = 1%Z \/ tStep h = (-1)%Z))
    \/ exists t_min,
         s_ltb t t_min = true /\ isEqual t t_min = false
         /\ s_ltb t_min max_t = true /\ isEqual t_min (tMax h) = true in
  within (polarHit ray grid seg ct cur t max_t)
  /\ within (azimuthalHit ray grid seg ct cur t max_t).
Proof.
  cbv zeta. split; [unfold polarHit | unfold azimuthalHit]; cbv zeta;
    apply angularHit_contract.
Qed.

(** *** The initial angular indices *)

(** X7. For a table of [N + 1] boundary points,
    [initializeAngularVoxelID] returns an index in [0..N-1] or the value
    [N + 2] of a search that found no arc, and the driver's test
    [static_cast<std::size_t>(id) >= N] fires exactly in the second case. *)
Theorem initializeAngularVoxelID_guard (grid : SphericalVoxelGrid T) (n : Z)
    (rs : Vec3 T) (tbl : list (LineSegment T)) (a b c : T) :
  (1 <= n < 2 ^ 31)%Z -> Z.of_nat (length tbl) = (n + 1)%Z ->
  let r := initializeAngularVoxelID grid n rs tbl a b c in
  ((0 <= r < n)%Z \/ r = (n + 2)%Z)
  /\ ((to_size_t r >=? n)%Z = true <-> r = (n + 2)%Z).
Proof.
  intros Hn Hlen. cbv zeta.
  assert (Hr : (0 <= initializeAngularVoxelID grid n rs tbl a b c < n)%Z
               \/ initializeAngularVoxelID grid n rs tbl a b c = (n + 2)%Z).
  { unfold initializeAngularVoxelID.
    destruct (n =? 1)%Z; [left; lia|].
    destruct (s_eqb _ s_zero); [left; lia|].
    match goal with
    | |- context [calculateAngularVoxelIDFromPoints tbl ?p ?q] =>
        destruct (angular_voxel_id_range tbl p q) as [(H0 & H1) | E]
    end; [left | right]; lia. }
  split; [exact Hr|].
  unfold to_size_t, size_t_modulus. rewrite Z.geb_leb.
  destruct Hr as [Hr | Hr].
  - rewrite Z.mod_small by lia. split; intros C; [apply Z.leb_le in C|]; lia.
  - rewrite Hr, Z.mod_small by lia. split; [reflexivity|].
    intros _. apply Z.leb_le. lia.
Qed.

(** *** Grids with a single angular section *)

Lemma angular_wrap_one (cur step : Z) : angular_wrap cur step 1 = 0%Z.
Proof. unfold angular_wrap. apply Z.mod_1_r. Qed.

(** X8. In a grid with one polar and one azimuthal section every emitted
    voxel has polar and azimuthal index [0]. *)
Theorem walk_single_angular_section (fuel : nat) (ray : Ray T)
    (grid : SphericalVoxelGrid T) (max_t : T) :
  numPolarSections grid = 1%Z -> numAzimuthalSections grid = 1%Z ->
  Forall (fun v => polar v = 0%Z /\ azimuthal v = 0%Z)
         (emitted (walkSphericalVolume fuel ray grid max_t)).
Proof.
  intros Hp Ha.
  destruct (rejects ray grid max_t) eqn:Rj.
  - rewrite (walk_rejected fuel _ _ _ Rj). constructor.
  - rewrite (walk_accepted fuel _ _ _ Rj).
    set (f := initial_frame ray grid max_t).
    assert (H0 : current_polar_voxel (initial_state ray grid) = 0%Z
                 /\ current_azimuthal_voxel (initial_state ray grid) = 0%Z).
    { unfold initial_state, initial_polar_voxel, initial_azimuthal_voxel,
        initializeAngularVoxelID; cbn [current_polar_voxel
        current_azimuthal_voxel]. rewrite Hp, Ha. split; reflexivity. }
    apply (traverse_indices f
             (fun st => current_polar_voxel st = 0%Z
                        /\ current_azimuthal_voxel st = 0%Z)
             (fun _ p a => p = 0%Z /\ a = 0%Z)).
    + intros st st' [Hcp Hca] E.
      apply loop_body_step in E as (_ & t' & r' & p' & a' & E & _ & Hp' & Ha').
      apply emit_cases in E as (_ & _ & Ep & Ea & _).
      change (f_grid f) with grid in Hp', Ha'.
      rewrite Hp, angular_wrap_one in Hp'.
      rewrite Ha, angular_wrap_one in Ha'.
      rewrite Ep, Ea. split.
      * destruct Hp' as [-> | ->]; [exact Hcp | reflexivity].
      * destruct Ha' as [-> | ->]; [exact Hca | reflexivity].
    + intros st Hst. exact Hst.
    + exact H0.
    + constructor; [|constructor]. exact H0.
Qed.

(** *** The number of voxels *)

Lemma traverse_length (f : Frame T) (fuel : nat) (st : LoopState T) :
  (length (emitted (traverse fuel f st)) <= length (voxels st) + fuel)%nat.
Proof.
  revert st. induction fuel as [|fuel IH]; intros st; simpl; [lia|].
  destruct (loop_body f st) as [vs|st'] eqn:E; simpl.
  - apply loop_body_Return in E. rewrite E, length_back_set_exit_t. lia.
  - specialize (IH st').
    apply loop_body_Continue in E as (t & r & p & a & tr & E).
    apply emit_cases in E as (_ & _ & _ & _ & _ & [[_ Ev] | [_ Ev]]);
      rewrite Ev in IH; [lia|].
    unfold push_back in IH.
    rewrite length_app, length_back_set_exit_t in IH. simpl in IH. lia.
Qed.

(** X9. An iteration of the main loop emits at most one voxel: after [n]
    iterations the output holds at most [n + 1] voxels. *)
Theorem walk_length (fuel : nat) (ray : Ray T) (grid : SphericalVoxelGrid T)
    (max_t : T) :
  (length (emitted (walkSphericalVolume fuel ray grid max_t)) <= fuel + 1)%nat.
Proof.
  destruct (rejects ray grid max_t) eqn:Rj.
  - rewrite (walk_rejected fuel _ _ _ Rj). simpl. lia.
  - rewrite (walk_accepted fuel _ _ _ Rj).
    pose proof (traverse_length (initial_frame ray grid max_t) fuel
                  (initial_state ray grid)) as Hl.
    simpl in Hl. lia.
Qed.

(** *** The radial hit *)

(** X10. The step of [radialHit] is [-1], [0] or [1].  A hit with a non-zero
    step lies before [max_t]; a hit with [tStep = 1] leaves the flag clear
    and lies after [t]; a hit with [tStep = -1] sets the flag (its time is
    not compared with [t]); a hit with [tStep = 0] is the sentinel, which
    leaves the flag as it was, or the tangential hit, which lies after [t]
    and sets the flag.  A flag that is set stays set. *)
Theorem radialHit_contract (ray : Ray T) (grid : SphericalVoxelGrid T)
    (tr : bool) (k : Z) (v rmv2 t max_t : T) :
  let h := fst (radialHit ray grid tr k v rmv2 t max_t) in
  let tr' := snd (radialHit ray grid tr k v rmv2 t max_t) in
  (tStep h = 1%Z ->
   tr = false /\ tr' = false
   /\ s_ltb t (tMax h) = true /\ s_ltb (tMax h) max_t = true)
  /\ (tStep h = (-1)%Z -> tr' = true /\ s_ltb (tMax h) max_t = true)
  /\ (tStep h = 0%Z ->
      (h = no_hit /\ tr' = tr)
      \/ (tr = false /\ tr' = true /\ s_ltb t (tMax h) = true))
  /\ (tStep h = (-1)%Z \/ tStep h = 0%Z \/ tStep h = 1%Z)
  /\ (tr = true -> tr' = true).
Proof.
  unfold radialHit. destruct tr.
  - destruct (s_ltb _ max_t) eqn:E; simpl;
      repeat split; intros; try discriminate; auto.
  - cbv zeta.
    match goal with
    | |- context [if ?c1 && ?c2 then _ else _] =>
        destruct c1 eqn:Egt; destruct c2 eqn:Eeq; cbn [andb]
    end;
    repeat match goal with
           | |- context [if ?c1 && ?c2 then _ else _] =>
               destruct c2 eqn:?; cbn [andb]
           | |- context [if ?c then _ else _] => destruct c eqn:?
           end; simpl;
    repeat split; intros; try discriminate; auto.
Qed.

End Traversal.

(** * Further properties in exact real arithmetic *)

Section ExactGeometry.

Local Open Scope R_scope.

(** *** Rays *)

(** X11. Over the reals a ray whose [x] and [y] directions are not positive
    and whose [z] direction is not zero still gets
    [timeOfIntersectionAt s = s]: the [z] component is used without looking
    at its flag, so a negative [z] direction is handled where a negative [x]
    or [y] direction is not. *)
Theorem timeOfIntersectionAt_z_fallback (o d : Vec3 R) (s : R) :
  vx d <= 0 -> vy d <= 0 -> vz d <> 0 ->
  timeOfIntersectionAt (mkRay o d) s = s.
Proof.
  intros Hx Hy Hz.
  unfold timeOfIntersectionAt, mkRay; simpl.
  rewrite (proj2 (Rltb_false 0 (vx d)) Hx), (proj2 (Rltb_false 0 (vy d)) Hy).
  field. exact Hz.
Qed.

(** A ray along [-z]. *)
Lemma timeOfIntersectionAt_z_fallback_witness :
  timeOfIntersectionAt (mkRay (rvec 0 0 0) (rvec 0 0 (-1))) 2 = 2.
Proof.
  apply timeOfIntersectionAt_z_fallback; cbn; lra.
Defined.

(** *** The ray and the spheres *)

Lemma distance_squared_along_ray (o d : Vec3 R) (grid : SphericalVoxelGrid R)
    (t : R) :
  dot d d = 1 ->
  squared_length (vec_sub (sphereCenter grid) (pointAtParameter (mkRay o d) t))
  = rsvd_minus_v_squared_of (mkRay o d) grid
    + (t - v_of (mkRay o d) grid) * (t - v_of (mkRay o d) grid).
Proof.
  intros Hd.
  unfold rsvd_minus_v_squared_of, v_of, rsv_of, squared_length, dot, vec_sub,
    pointAtParameter, vec_add, vec_scale, mkRay in *.
  cbn [origin direction vx vy vz] in *. real_ops.
  set (cx := vx (sphereCenter grid)). set (cy := vy (sphereCenter grid)).
  set (cz := vz (sphereCenter grid)).
  replace ((cx - (vx o + vx d * t)) * (cx - (vx o + vx d * t))
           + (cy - (vy o + vy d * t)) * (cy - (vy o + vy d * t))
           + (cz - (vz o + vz d * t)) * (cz - (vz o + vz d * t)))
    with ((cx - vx o) * (cx - vx o) + (cy - vy o) * (cy - vy o)
          + (cz - vz o) * (cz - vz o)
          - 2 * t * ((cx - vx o) * vx d + (cy - vy o) * vy d
                     + (cz - vz o) * vz d)
          + t * t * (vx d * vx d + vy d * vy d + vz d * vz d)) by ring.
  rewrite Hd. ring.
Qed.

(** X12. For a unit direction, the squared distance from the sphere centre
    to the point of the ray at time [t] is
    [rsvd_minus_v_squared + (t - v)^2].  So when the driver's test
    [entry_radius_squared <= rsvd_minus_v_squared] makes it return the empty
    vector, no point of the line lies inside the entry sphere. *)
Theorem distance_from_centre_along_ray (o d : Vec3 R)
    (grid : SphericalVoxelGrid R) :
  dot d d = 1 ->
  (forall t,
     squared_length
       (vec_sub (sphereCenter grid) (pointAtParameter (mkRay o d) t))
     = rsvd_minus_v_squared_of (mkRay o d) grid
       + (t - v_of (mkRay o d) grid) * (t - v_of (mkRay o d) grid))
  /\ (s_leb (entry_radius_squared (mkRay o d) grid)
            (rsvd_minus_v_squared_of (mkRay o d) grid) = true ->
      forall t,
        entry_radius_squared (mkRay o d) grid
        <= squared_length
             (vec_sub (sphereCenter grid) (pointAtParameter (mkRay o d) t))).
Proof.
  intros Hd. split.
  - intros t. now apply distance_squared_along_ray.
  - intros Hmiss t. apply Rleb_true in Hmiss.
    rewrite (distance_squared_along_ray o d grid t Hd).
    pose proof (Rle_0_sqr (t - v_of (mkRay o d) grid)) as Hsq.
    unfold Rsqr in Hsq. lra.
Qed.

(** The first ray of the spec's scenarios. *)
Lemma distance_from_centre_along_ray_witness :
  (forall t,
     squared_length
       (vec_sub (sphereCenter grid_scenario_exact)
          (pointAtParameter (mkRay (rvec (-2) 0 0) (rvec 1 0 0)) t))
     = rsvd_minus_v_squared_of (mkRay (rvec (-2) 0 0) (rvec 1 0 0))
         grid_scenario_exact
       + (t - v_of (mkRay (rvec (-2) 0 0) (rvec 1 0 0)) grid_scenario_exact)
         * (t - v_of (mkRay (rvec (-2) 0 0) (rvec 1 0 0))
                  grid_scenario_exact))
  /\ (s_leb (entry_radius_squared (mkRay (rvec (-2) 0 0) (rvec 1 0 0))
               grid_scenario_exact)
            (rsvd_minus_v_squared_of (mkRay (rvec (-2) 0 0) (rvec 1 0 0))
               grid_scenario_exact) = true ->
      forall t,
        entry_radius_squared (mkRay (rvec (-2) 0 0) (rvec 1 0 0))
          grid_scenario_exact
        <= squared_length
             (vec_sub (sphereCenter grid_scenario_exact)
                (pointAtParameter (mkRay (rvec (-2) 0 0) (rvec 1 0 0)) t))).
Proof.
  apply distance_from_centre_along_ray. unfold dot. cbn. lra.
Defined.

(** X13. For a unit direction with a positive component, when the driver's
    miss test passes ([rsvd_minus_v_squared < entry_radius_squared]), the
    points of the ray at [t_ray_entrance] and at [t_ray_exit] lie on the
    entry sphere, and [t_ray_entrance < t_ray_exit]. *)
Theorem entrance_and_exit_on_entry_sphere (o d : Vec3 R)
    (grid : SphericalVoxelGrid R) :
  dot d d = 1 -> 0 < vx d \/ 0 < vy d \/ 0 < vz d ->
  rsvd_minus_v_squared_of (mkRay o d) grid
  < entry_radius_squared (mkRay o d) grid ->
  let on_entry_sphere (t : R) :=
    squared_length
      (vec_sub (sphereCenter grid) (pointAtParameter (mkRay o d) t))
    = entry_radius_squared (mkRay o d) grid in
  on_entry_sphere (t_ray_entrance (mkRay o d) grid)
  /\ on_entry_sphere (t_ray_exit (mkRay o d) grid)
  /\ t_ray_entrance (mkRay o d) grid < t_ray_exit (mkRay o d) grid.
Proof.
  intros Hd Hpos Hhit. cbv zeta.
  assert (Htime : forall s, timeOfIntersectionAt (mkRay o d) s = s).
  { intros s. unfold timeOfIntersectionAt, mkRay; simpl.
    destruct (Rltb 0 (vx d)) eqn:Ex.
    - apply Rltb_true in Ex. field. lra.
    - destruct (Rltb 0 (vy d)) eqn:Ey.
      + apply Rltb_true in Ey. field. lra.
      + apply Rltb_false in Ex, Ey. assert (0 < vz d) by lra. field. lra. }
  unfold t_ray_entrance, t_ray_exit. rewrite !Htime.
  rewrite !(distance_squared_along_ray o d grid _ Hd).
  unfold d_of. real_ops.
  set (rho := entry_radius_squared (mkRay o d) grid) in *.
  set (m := rsvd_minus_v_squared_of (mkRay o d) grid) in *.
  set (v := v_of (mkRay o d) grid).
  assert (Hs : R_sqrt.sqrt (rho - m) * R_sqrt.sqrt (rho - m) = rho - m)
    by (apply sqrt_sqrt; lra).
  assert (Hp : 0 < R_sqrt.sqrt (rho - m)) by (apply sqrt_lt_R0; lra).
  repeat split.
  - replace (v - R_sqrt.sqrt (rho - m) - v) with (- R_sqrt.sqrt (rho - m))
      by ring.
    replace (- R_sqrt.sqrt (rho - m) * - R_sqrt.sqrt (rho - m))
      with (R_sqrt.sqrt (rho - m) * R_sqrt.sqrt (rho - m)) by ring.
    rewrite Hs. ring.
  - replace (v + R_sqrt.sqrt (rho - m) - v) with (R_sqrt.sqrt (rho - m))
      by ring.
    rewrite Hs. ring.
  - lra.
Qed.

(** The first ray of the spec's scenarios starts outside the grid; its entry
    sphere is the outermost one and its line passes through the centre. *)
Lemma scenario1_entry_radius_squared :
  radial_entrance_voxel ray_scenario1_exact grid_scenario_exact = 0%Z
  /\ entry_radius_squared ray_scenario1_exact grid_scenario_exact = 1
  /\ rsvd_minus_v_squared_of ray_scenario1_exact grid_scenario_exact = 0.
Proof.
  assert (E0 : radial_entrance_voxel ray_scenario1_exact grid_scenario_exact
               = 0%Z).
  { unfold radial_entrance_voxel, grid_scenario_exact, make_grid.
    cbn [delta_radii_sq].
    change (seq 0 (Z.to_nat 4 + 1)) with [0; 1; 2; 3; 4]%nat.
    cbn [map radial_entrance].
    match goal with
    | |- (if s_ltb ?a ?b then _ else _) = _ =>
        replace (s_ltb a b) with false; [reflexivity|]
    end.
    symmetry. apply Rltb_false.
    unfold squared_length, dot, rsv_of, vec_sub, pointAtParameter, vec_add,
      vec_scale, ray_scenario1_exact, mkRay, rvec.
    cbn [origin direction vx vy vz sphereCenter Z.of_nat Z.sub]. real_ops.
    rewrite Z.sub_0_r. lra. }
  split; [exact E0|]. split.
  - unfold entry_radius_squared. rewrite (vector_index_outside _ _ E0).
    unfold deltaRadiiSquared, grid_scenario_exact, make_grid.
    cbn [delta_radii_sq].
    change (seq 0 (Z.to_nat 4 + 1)) with [0; 1; 2; 3; 4]%nat.
    cbn [map]. rewrite lookup_head. real_ops. cbn [Z.of_nat Z.sub].
    rewrite ?Z.sub_0_r. field.
  - unfold rsvd_minus_v_squared_of, v_of, dot, rsv_of, vec_sub,
      pointAtParameter, vec_add, vec_scale, ray_scenario1_exact, mkRay, rvec,
      grid_scenario_exact, make_grid.
    cbn [origin direction vx vy vz sphereCenter]. unfold rvec.
    cbn [vx vy vz]. real_ops. ring.
Qed.

Lemma entrance_and_exit_on_entry_sphere_witness :
  (squared_length
     (vec_sub (sphereCenter grid_scenario_exact)
        (pointAtParameter (mkRay (rvec (-2) 0 0) (rvec 1 0 0))
           (t_ray_entrance (mkRay (rvec (-2) 0 0) (rvec 1 0 0))
              grid_scenario_exact)))
   = entry_radius_squared (mkRay (rvec (-2) 0 0) (rvec 1 0 0))
       grid_scenario_exact)
  /\ (squared_length
        (vec_sub (sphereCenter grid_scenario_exact)
           (pointAtParameter (mkRay (rvec (-2) 0 0) (rvec 1 0 0))
              (t_ray_exit (mkRay (rvec (-2) 0 0) (rvec 1 0 0))
                 grid_scenario_exact)))
      = entry_radius_squared (mkRay (rvec (-2) 0 0) (rvec 1 0 0))
          grid_scenario_exact)
  /\ t_ray_entrance (mkRay (rvec (-2) 0 0) (rvec 1 0 0)) grid_scenario_exact
     < t_ray_exit (mkRay (rvec (-2) 0 0) (rvec 1 0 0)) grid_scenario_exact.
Proof.
  apply (entrance_and_exit_on_entry_sphere (rvec (-2) 0 0) (rvec 1 0 0)
           grid_scenario_exact).
  - unfold dot. cbn. lra.
  - left. cbn. lra.
  - destruct scenario1_entry_radius_squared as (_ & E1 & E2).
    unfold ray_scenario1_exact in E1, E2. rewrite E1, E2. lra.
Defined.

(** *** The choice of the next boundary *)

Lemma isEqual_refl_R (a : R) : isEqual a a = true.
Proof.
  apply isEqual_R. replace (a - a) with 0 by ring. rewrite Rabs_R0.
  pose proof (Rabs_pos a) as Ha.
  assert (Hm : 0 <= Rmax (Rabs a) (Rabs a)) by (rewrite Rmax_left; lra).
  lra.
Qed.

(** X14. Over the reals [minimumIntersection] names a hit with the least
    [tMax]: a single kind is returned only when its time is strictly below
    the two others, and a combined kind only when the times it names are
    [isEqual]. *)
Theorem minimumIntersection_minimal (r p a : HitParameters R) :
  match minimumIntersection r p a with
  | Radial => tMax r < tMax p /\ tMax r < tMax a
  | Polar => tMax p < tMax r /\ tMax p < tMax a
  | Azimuthal => tMax a < tMax r /\ tMax a < tMax p
  | RadialPolarAzimuthal =>
      isEqual (tMax r) (tMax p) = true /\ isEqual (tMax r) (tMax a) = true
  | PolarAzimuthal => isEqual (tMax p) (tMax a) = true
  | RadialPolar => isEqual (tMax r) (tMax p) = true
  | RadialAzimuthal => isEqual (tMax r) (tMax a) = true
  end.
Proof.
  unfold minimumIntersection. cbv zeta. real_ops.
  pose proof (isEqual_refl_R (tMax r)) as Hrr.
  pose proof (isEqual_refl_R (tMax p)) as Hpp.
  destruct (isEqual (tMax r) (tMax p)) eqn:RP_eq;
    destruct (isEqual (tMax r) (tMax a)) eqn:RA_eq;
    destruct (isEqual (tMax p) (tMax a)) eqn:PA_eq;
    destruct (Rltb (tMax r) (tMax p)) eqn:RP_lt;
    destruct (Rltb (tMax r) (tMax a)) eqn:RA_lt;
    destruct (Rltb (tMax p) (tMax a)) eqn:PA_lt;
    cbn [andb negb];
    repeat match goal with
           | E : Rltb _ _ = true |- _ => apply Rltb_true in E
           | E : Rltb _ _ = false |- _ => apply Rltb_false in E
           end;
    try match goal with |- _ /\ _ => split end;
    first [ reflexivity
          | lra
          | match goal with
            | |- ?x < ?y =>
                destruct (Req_dec_T x y) as [Heq | Hne];
                [exfalso; rewrite Heq in *; congruence | lra]
            end ].
Qed.

(** *** Angular bounds *)

Lemma inBounds_angval (k step : Z) (delta : R) :
  0 <= delta ->
  IZR (k + 1) * delta - Rabs (IZR step * delta)
  = IZR (k + 1 - Z.abs step) * delta.
Proof.
  intros Hd. rewrite Rabs_mult, (Rabs_right delta) by lra.
  rewrite <- abs_IZR, minus_IZR. ring.
Qed.

(** X15. Over the reals, with non-negative angular widths, a step [s] from
    the angular voxel [k] is in bounds exactly when the angle
    [(k + 1 - |s|) * delta] lies between the grid's bounds: the test does
    not depend on the sign of the step. *)
Theorem inBounds_angle (grid : SphericalVoxelGrid R) (step k : Z) :
  0 <= deltaTheta grid -> 0 <= deltaPhi grid ->
  (inBoundsPolar grid step k = true
   <-> sphereMinBoundPolar grid <= IZR (k + 1 - Z.abs step) * deltaTheta grid
       <= sphereMaxBoundPolar grid)
  /\ (inBoundsAzimuthal grid step k = true
      <-> sphereMinBoundAzi grid <= IZR (k + 1 - Z.abs step) * deltaPhi grid
          <= sphereMaxBoundAzi grid).
Proof.
  intros Ht Hp. unfold inBoundsPolar, inBoundsAzimuthal. cbv zeta. real_ops.
  rewrite !inBounds_angval by assumption.
  split; rewrite andb_true_iff, !Rleb_true; tauto.
Qed.

(** A step of [+1] from the first voxel of the spec's grid. *)
Lemma inBounds_angle_witness :
  (inBoundsPolar grid_scenario_exact 1 0 = true
   <-> sphereMinBoundPolar grid_scenario_exact
       <= IZR (0 + 1 - Z.abs 1) * deltaTheta grid_scenario_exact
       <= sphereMaxBoundPolar grid_scenario_exact)
  /\ (inBoundsAzimuthal grid_scenario_exact 1 0 = true
      <-> sphereMinBoundAzi grid_scenario_exact
          <= IZR (0 + 1 - Z.abs 1) * deltaPhi grid_scenario_exact
          <= sphereMaxBoundAzi grid_scenario_exact).
Proof.
  pose proof PI_RGT_0 as Hpi.
  apply inBounds_angle;
    unfold grid_scenario_exact, make_grid; cbn [deltaTheta deltaPhi];
    real_ops; lra.
Defined.

(** *** Boundary points at the entry radius *)

(** X16. For an origin inside the grid, [initializeVoxelBoundarySegments]
    puts every boundary point on the circle of radius [current_radius]
    around the sphere centre (in the XY plane for polar, in the XZ plane
    for azimuthal points), provided the grid's cosines and sines are those
    of angles and the buffers have the size of the tables. *)
Theorem boundary_points_on_circle (grid : SphericalVoxelGrid R)
    (P_polar P_azimuthal : list (LineSegment R)) (current_radius : R) :
  Forall (fun tv => cosine tv * cosine tv + sine tv * sine tv = 1)
         (polarTrigValues grid) ->
  Forall (fun tv => cosine tv * cosine tv + sine tv * sine tv = 1)
         (azimuthalTrigValues grid) ->
  length P_polar = length (polarTrigValues grid) ->
  length P_azimuthal = length (azimuthalTrigValues grid) ->
  let segments :=
    initializeVoxelBoundarySegments P_polar P_azimuthal false grid
      current_radius in
  Forall (fun p => (P1 p - vx (sphereCenter grid))
                   * (P1 p - vx (sphereCenter grid))
                   + (P2 p - vy (sphereCenter grid))
                     * (P2 p - vy (sphereCenter grid))
                   = current_radius * current_radius) (fst segments)
  /\ Forall (fun p => (P1 p - vx (sphereCenter grid))
                      * (P1 p - vx (sphereCenter grid))
                      + (P2 p - vz (sphereCenter grid))
                        * (P2 p - vz (sphereCenter grid))
                      = current_radius * current_radius) (snd segments).
Proof.
  intros Hpt Hat Lp La. cbv zeta.
  unfold initializeVoxelBoundarySegments, transform_into. cbn [fst snd].
  rewrite <- Lp, <- La, !skipn_all, !app_nil_r.
  split; apply Forall_map.
  - eapply Forall_impl; [|exact Hpt]. intros tv Hu. cbn [P1 P2]. real_ops.
    replace ((current_radius * cosine tv + vx (sphereCenter grid)
              - vx (sphereCenter grid))
             * (current_radius * cosine tv + vx (sphereCenter grid)
                - vx (sphereCenter grid))
             + (current_radius * sine tv + vy (sphereCenter grid)
                - vy (sphereCenter grid))
               * (current_radius * sine tv + vy (sphereCenter grid)
                  - vy (sphereCenter grid)))
      with (current_radius * current_radius
            * (cosine tv * cosine tv + sine tv * sine tv)) by ring.
    rewrite Hu. ring.
  - eapply Forall_impl; [|exact Hat]. intros tv Hu. cbn [P1 P2]. real_ops.
    replace ((current_radius * cosine tv + vx (sphereCenter grid)
              - vx (sphereCenter grid))
             * (current_radius * cosine tv + vx (sphereCenter grid)
                - vx (sphereCenter grid))
             + (current_radius * sine tv + vz (sphereCenter grid)
                - vz (sphereCenter grid))
               * (current_radius * sine tv + vz (sphereCenter grid)
                  - vz (sphereCenter grid)))
      with (current_radius * current_radius
            * (cosine tv * cosine tv + sine tv * sine tv)) by ring.
    rewrite Hu. ring.
Qed.

(** The spec's grid at half its radius. *)
Lemma boundary_points_on_circle_witness :
  Forall (fun p => (P1 p - vx (sphereCenter grid_scenario_exact))
                   * (P1 p - vx (sphereCenter grid_scenario_exact))
                   + (P2 p - vy (sphereCenter grid_scenario_exact))
                     * (P2 p - vy (sphereCenter grid_scenario_exact))
                   = 1 / 2 * (1 / 2))
         (fst (initializeVoxelBoundarySegments
                 (repeat zero_segment 5) (repeat zero_segment 5) false
                 grid_scenario_exact (1 / 2)))
  /\ Forall (fun p => (P1 p - vx (sphereCenter grid_scenario_exact))
                      * (P1 p - vx (sphereCenter grid_scenario_exact))
                      + (P2 p - vz (sphereCenter grid_scenario_exact))
                        * (P2 p - vz (sphereCenter grid_scenario_exact))
                      = 1 / 2 * (1 / 2))
            (snd (initializeVoxelBoundarySegments
                    (repeat zero_segment 5) (repeat zero_segment 5) false
                    grid_scenario_exact (1 / 2))).
Proof.
  apply boundary_points_on_circle; try reflexivity;
    unfold grid_scenario_exact, make_grid, quarter_turns_exact;
    cbn [polarTrigValues azimuthalTrigValues];
    repeat constructor; cbn [cosine sine]; lra.
Defined.

End ExactGeometry.

(** * Runs on binary64 inputs for the properties above *)

(** The two voxels of [short_budget_run]. *)
Lemma walk_exit_is_next_enter_witness :
  exit_t (mkVoxel 1 0 0 0 5)%float = enter_t (mkVoxel 2 0 0 5 12)%float.
Proof.
  apply (walk_exit_is_next_enter 50 ray_through grid_shells 0.25%float 0);
    vm_compute; reflexivity.
Defined.

(** The same run: the origin is outside [grid_shells]. *)
Lemma walk_first_voxel_witness :
  exists v rest,
    emitted (walkSphericalVolume 50 ray_through grid_shells 0.25%float)
    = v :: rest
    /\ radial v = (radial_entrance_voxel ray_through grid_shells
                   + Z_of_bool (ray_origin_is_outside_grid ray_through
                                  grid_shells))%Z
    /\ (ray_origin_is_outside_grid ray_through grid_shells = true ->
        radial v = 1%Z)
    /\ polar v = initial_polar_voxel ray_through grid_shells
    /\ azimuthal v = initial_azimuthal_voxel ray_through grid_shells.
Proof.
  apply (walk_first_voxel 50 ray_through grid_shells 0.25%float).
  vm_compute. reflexivity.
Defined.

(** The polar table of the spec's grid ([N = 4]) and a point on the [-x]
    axis. *)
Lemma initializeAngularVoxelID_guard_witness :
  ((0 <= initializeAngularVoxelID grid_scenario 4 (fvec 1 0 0)
           (pMaxPolar grid_scenario) 0%float 0%float 1%float < 4)%Z
   \/ initializeAngularVoxelID grid_scenario 4 (fvec 1 0 0)
        (pMaxPolar grid_scenario) 0%float 0%float 1%float = (4 + 2)%Z)
  /\ ((to_size_t (initializeAngularVoxelID grid_scenario 4 (fvec 1 0 0)
                    (pMaxPolar grid_scenario) 0%float 0%float 1%float)
       >=? 4)%Z = true
      <-> initializeAngularVoxelID grid_scenario 4 (fvec 1 0 0)
            (pMaxPolar grid_scenario) 0%float 0%float 1%float = (4 + 2)%Z).
Proof.
  apply (initializeAngularVoxelID_guard grid_scenario 4 (fvec 1 0 0)
           (pMaxPolar grid_scenario) 0%float 0%float 1%float).
  - lia.
  - reflexivity.
Defined.

(** [grid_shells] has one polar and one azimuthal section. *)
Lemma walk_single_angular_section_witness :
  Forall (fun v => polar v = 0%Z /\ azimuthal v = 0%Z)
         (emitted (walkSphericalVolume 50 ray_through grid_shells 0.25%float)).
Proof.
  apply walk_single_angular_section; reflexivity.
Defined.


(** On the spec's grid with the vectors to the bounds pointing to the
    centre, [ray_clockwise] takes angular steps: the polar index goes
    [1, 0, 0, 3, 3], the step from [0] to [3] being [(0 + -1) mod 4] on
    [std::size_t]. *)
Lemma ray_clockwise_run :
  map (fun v => (radial v, polar v, azimuthal v))
      (emitted (walkSphericalVolume 50 ray_clockwise
                  (inward_bounds grid_scenario) 1%float))
  = [(1, 1, 1); (1, 0, 0); (2, 0, 0); (2, 3, 0); (1, 3, 0)]%Z.
Proof. vm_compute. reflexivity. Qed.

Lemma walk_lower_and_angular_ranges_witness :
  Forall (fun v => (1 <= radial v
                    /\ 0 <= polar v
                       <= numPolarSections (inward_bounds grid_scenario) - 1
                    /\ 0 <= azimuthal v
                       <= numAzimuthalSections (inward_bounds grid_scenario)
                          - 1)%Z)
         (emitted (walkSphericalVolume 50 ray_clockwise
                     (inward_bounds grid_scenario) 1%float)).
Proof.
  apply (walk_lower_and_angular_ranges 50 ray_clockwise
           (inward_bounds grid_scenario) 1%float).
  split; [|vm_compute; reflexivity].
  repeat split; vm_compute; congruence.
Defined.
